(** * Idempotent payments API: key lifecycle, atomic claim, short poll, sweeper

    A shallow embedding of [index.js] (the Express handlers and
    [tryClaimKey]), [cleanup_expired_keys.js] and the two tables of
    [migrations.sql].

    Every SQL statement is one function on the database value: the storage
    serialises the statements of all connections, and a conditional UPDATE
    tests its WHERE clause on the row as the statements before it left it.
    A request handler is a small machine whose steps are the statements it
    awaits, so that handlers of different requests, the issuer and the
    sweeper can be interleaved statement by statement.  What the code cannot
    decide (the clock, a statement rejected by the storage, the key drawn by
    [makeKey]) is an input of the step. *)

From Stdlib Require Import ZArith List Lia Bool.
From stdpp Require Import gmap strings list fin_maps sorting.

Open Scope string_scope.
Open Scope Z_scope.

Set Warnings "-register-all,-clear-no-such-hyp".

(** ** Data model (migrations.sql) *)

(** JSON values, as stored in the [response JSONB] column and as sent by
    [res.json].  Timestamps are numbers (milliseconds). *)
Inductive json : Type :=
| JNull : json
| JBool : bool -> json
| JNum : Z -> json
| JStr : string -> json
| JObj : list (string * json) -> json.

(** [status TEXT NOT NULL -- 'reserved'|'processing'|'completed'|'failed'] *)
Inductive status : Type := reserved | processing | completed | failed.

Definition status_eqb (a b : status) : bool :=
  match a, b with
  | reserved, reserved | processing, processing
  | completed, completed | failed, failed => true
  | _, _ => false
  end.

Definition status_text (s : status) : string :=
  match s with
  | reserved => "reserved"
  | processing => "processing"
  | completed => "completed"
  | failed => "failed"
  end.

Definition terminal (s : status) : bool :=
  match s with completed | failed => true | _ => false end.

(** One row of [idempotency_keys]; the primary key [key] is the key of the
    map holding the rows.  A nullable column is an [option]. *)
Record key_row : Type := KeyRow {
  row_status : status;
  row_response : option json;
  row_user_id : option Z;
  row_operation : option string;
  row_reserved_until : option Z;
  row_created_at : Z;
  row_updated_at : Z
}.

(** One row of [payments]. *)
Record payment : Type := Payment {
  pay_id : Z;
  pay_user_id : Z;
  pay_amount : Z;
  pay_created_at : Z
}.

(** The database: both tables, and the sequence behind [payments.id]. *)
Record db : Type := Db {
  idempotency_keys : gmap string key_row;
  payments : list payment;
  payments_id_seq : Z
}.

Definition empty_db : db := Db ∅ [] 0.

Definition with_keys (d : db) (t : gmap string key_row) : db :=
  Db t (payments d) (payments_id_seq d).

(** ** JavaScript values that reach the code *)

(** [v || null] on a number that may be missing: [undefined], [null] and
    [0] all become [null]. *)
Definition or_null (v : option Z) : option Z :=
  match v with
  | Some n => if n =? 0 then None else Some n
  | None => None
  end.

(** The same on a string: the empty string is falsy. *)
Definition or_null_str (v : option string) : option string :=
  match v with
  | Some s => if String.eqb s "" then None else Some s
  | None => None
  end.

Definition opt_json (r : option json) : json :=
  match r with Some j => j | None => JNull end.

Definition opt_num (r : option Z) : json :=
  match r with Some n => JNum n | None => JNull end.

Definition opt_str (r : option string) : json :=
  match r with Some s => JStr s | None => JNull end.

(** An HTTP answer: [res.status(code).json(body)]; [res.json] alone is 200. *)
Record http_response : Type := Http { code : Z; body : json }.

(** ** SQL statements *)

(** [SELECT status, response FROM idempotency_keys WHERE key=$1]:
    [None] is [rowCount === 0] (and [rows[0]] undefined). *)
Definition select_status_response (key : string) (d : db)
  : option (status * option json) :=
  match idempotency_keys d !! key with
  | Some r => Some (row_status r, row_response r)
  | None => None
  end.

(** The [WHERE] clause of the claim, on the row found under [key = $1];
    [p2] is the bound parameter [$2].  [user_id = $2] is not true when [$2]
    is null. *)
Definition owner_ok (r : key_row) (p2 : option Z) : bool :=
  match row_user_id r with
  | None => true
  | Some u => match p2 with Some v => u =? v | None => false end
  end.

Definition window_open (r : key_row) (now : Z) : bool :=
  match row_reserved_until r with
  | None => true
  | Some t => now <? t
  end.

Definition claimable (r : key_row) (p2 : option Z) (now : Z) : bool :=
  status_eqb (row_status r) reserved && owner_ok r p2 && window_open r now.

Definition claimed_row (r : key_row) (now : Z) : key_row :=
  KeyRow processing (row_response r) (row_user_id r) (row_operation r)
         (row_reserved_until r) (row_created_at r) now.

(** [tryClaimKey(key, user_id)]: the conditional [UPDATE ... RETURNING key]
    with parameters [[key, user_id || null]]; the result is
    [q.rowCount === 1] and the database after the statement. *)
Definition tryClaimKey (key : string) (user_id : option Z) (now : Z) (d : db)
  : bool * db :=
  match idempotency_keys d !! key with
  | Some r =>
      if claimable r (or_null user_id) now
      then (true, with_keys d (<[key := claimed_row r now]> (idempotency_keys d)))
      else (false, d)
  | None => (false, d)
  end.

(** [UPDATE idempotency_keys SET status=$2, response=$3, updated_at=now()
    WHERE key=$1]: unconditional on the row found; no row, no change. *)
Definition recorded_row (r : key_row) (s : status) (resp : json) (now : Z)
  : key_row :=
  KeyRow s (Some resp) (row_user_id r) (row_operation r)
         (row_reserved_until r) (row_created_at r) now.

Definition record_outcome (key : string) (s : status) (resp : json) (now : Z)
    (d : db) : db :=
  match idempotency_keys d !! key with
  | Some r => with_keys d (<[key := recorded_row r s resp now]> (idempotency_keys d))
  | None => d
  end.

(** [INSERT INTO idempotency_keys(...) VALUES ($1, 'reserved', null, $2, $3,
    $4, now(), now())]: the primary key rejects a second row for [key]
    ([None]: the statement throws). *)
Definition insert_key (key : string) (p_user : option Z)
    (p_operation : option string) (reserved_until : Z) (now : Z) (d : db)
  : option db :=
  match idempotency_keys d !! key with
  | Some _ => None
  | None =>
      Some (with_keys d
              (<[key := KeyRow reserved None p_user p_operation
                                (Some reserved_until) now now]>
                 (idempotency_keys d)))
  end.

(** [INSERT INTO payments (user_id, amount) VALUES ($1, $2) RETURNING id,
    created_at] inside [BEGIN]/[COMMIT]. *)
Definition insert_payment (user_id amount now : Z) (d : db) : payment * db :=
  let p := Payment (payments_id_seq d + 1) user_id amount now in
  (p, Db (idempotency_keys d) (payments d ++ [p]) (payments_id_seq d + 1)).

(** [SELECT * FROM idempotency_keys WHERE key=$1] *)
Definition select_row (key : string) (d : db) : option key_row :=
  idempotency_keys d !! key.

(** The sweeper's [WHERE]: [status='reserved' AND reserved_until IS NOT NULL
    AND reserved_until < now()]. *)
Definition expired (now : Z) (r : key_row) : bool :=
  status_eqb (row_status r) reserved &&
  match row_reserved_until r with
  | Some t => t <? now
  | None => false
  end.

(** The sweeper's [DELETE ... RETURNING key]: the number of rows deleted
    ([q.rowCount]) and the database without them. *)
Definition delete_expired (now : Z) (d : db) : nat * db :=
  (size (filter (λ kv, expired now kv.2 = true) (idempotency_keys d)),
   with_keys d (filter (λ kv, expired now kv.2 = false) (idempotency_keys d))).

(** ** The environment of a statement *)

(** What the code cannot decide: the database clock [now()] at the
    statement, and whether the awaited call rejects ([Some message]); a
    rejected statement leaves the database as it was. *)
Record env : Type := Env { now : Z; fault : option string }.

Definition calm (t : Z) : env := Env t None.

(** [cleanup()] of cleanup_expired_keys.js: the process exit code, the
    count it logs, and the database. *)
Definition cleanup (e : env) (d : db) : Z * option nat * db :=
  match fault e with
  | Some _ => (1, None, d)
  | None => let (n, d') := delete_expired (now e) d in (0, Some n, d')
  end.

(** ** POST /idempotency-keys *)

Definition KEY_TTL_MINUTES_default : Z := 1440.

(** The handler of [POST /idempotency-keys].  [key] is what [makeKey()]
    returned, [date_now] is [Date.now()] of the server process. *)
Definition issue (KEY_TTL_MINUTES : Z) (key : string) (date_now : Z) (e : env)
    (user_id : option Z) (operation : option string) (d : db)
  : http_response * db :=
  let reservedUntil := date_now + KEY_TTL_MINUTES * 60 * 1000 in
  let failure :=
    Http 500 (JObj [("error", JStr "failed to create idempotency key")]) in
  match fault e with
  | Some _ => (failure, d)
  | None =>
      match insert_key key (or_null user_id) (or_null_str operation)
                       reservedUntil (now e) d with
      | Some d' =>
          (Http 200 (JObj [("idempotencyKey", JStr key);
                           ("reserved_until", JNum reservedUntil)]), d')
      | None => (failure, d)
      end
  end.

(** ** GET /idempotency/:key *)

Definition row_json (key : string) (r : key_row) : json :=
  JObj [("key", JStr key);
        ("status", JStr (status_text (row_status r)));
        ("response", opt_json (row_response r));
        ("user_id", opt_num (row_user_id r));
        ("operation", opt_str (row_operation r));
        ("reserved_until", opt_num (row_reserved_until r));
        ("created_at", JNum (row_created_at r));
        ("updated_at", JNum (row_updated_at r))].

Definition get_idempotency (key : string) (d : db) : http_response :=
  match select_row key d with
  | None => Http 404 (JObj [("error", JStr "not found")])
  | Some r => Http 200 (row_json key r)
  end.

(** Reading a property of a JSON object, as a client of the API does. *)
Fixpoint assoc (name : string) (fields : list (string * json)) : option json :=
  match fields with
  | [] => None
  | (n, v) :: rest => if String.eqb n name then Some v else assoc name rest
  end.

Definition field (name : string) (j : json) : option json :=
  match j with JObj fields => assoc name fields | _ => None end.

(** ** POST /pay *)

Record pay_request : Type := PayRequest {
  req_key : option string;       (* req.header('Idempotency-Key') *)
  req_user_id : option Z;        (* req.body.user_id *)
  req_amount : option Z          (* req.body.amount *)
}.

Definition maxWaitMs : Z := 5000.
Definition intervalMs : Z := 100.

(** Where a handler of [POST /pay] stands: the statement it awaits next. *)
Inductive pay_pc : Type :=
| AtSelect                       (* the SELECT that validates the key *)
| AtClaim                        (* tryClaimKey *)
| AtCharge                       (* connect, BEGIN, INSERT payment, COMMIT *)
| AtComplete (payload : json)    (* the UPDATE to 'completed' *)
| AtFail (message : string)      (* the UPDATE to 'failed', in the catch *)
| AtPoll (waited : Z)            (* the SELECT of the poll loop *)
| Done (r : http_response).      (* the response was sent *)

Definition is_done (pc : pay_pc) : bool :=
  match pc with Done _ => true | _ => false end.

(** A request that passed the two checks on entry: [idempKey], [user_id]
    and [amount] are the handler's constants from then on. *)
Record handler : Type := Handler {
  idempKey : string;
  h_user_id : Z;
  h_amount : Z;
  pc : pay_pc
}.

Definition at_pc (h : handler) (p : pay_pc) : handler :=
  Handler (idempKey h) (h_user_id h) (h_amount h) p.

Definition missing_key : http_response :=
  Http 400 (JObj [("error", JStr "Missing Idempotency-Key header")]).
Definition missing_fields : http_response :=
  Http 400 (JObj [("error", JStr "Missing user_id or amount")]).
Definition unknown_key : http_response :=
  Http 400 (JObj [("error", JStr "Unknown idempotency key. Acquire a key first.")]).
Definition still_processing : http_response :=
  Http 202 (JObj [("status", JStr "processing");
                  ("message", JStr "Request being processed; check status endpoint.")]).
Definition server_error (message : string) : http_response :=
  Http 500 (JObj [("error", JStr "Server error"); ("detail", JStr message)]).
Definition payment_failed (message : string) : http_response :=
  Http 500 (JObj [("error", JStr "Payment failed"); ("detail", JStr message)]).
Definition previous_failed (response : option json) : http_response :=
  Http 500 (JObj [("error", JStr "Previous attempt failed");
                  ("detail", opt_json response)]).

(** The message of the [TypeError] of [r.status] when [r] is undefined. *)
Definition undefined_row_message : string :=
  "Cannot read properties of undefined (reading 'status')".

(** The two synchronous checks at the head of the handler. *)
Definition pay_begin (rq : pay_request) : http_response + handler :=
  match or_null_str (req_key rq) with
  | None => inl missing_key
  | Some k =>
      match or_null (req_user_id rq), or_null (req_amount rq) with
      | Some u, Some a => inr (Handler k u a AtSelect)
      | _, _ => inl missing_fields
      end
  end.

(** [while (waited < maxWaitMs)]: another poll, or the 202 after the loop. *)
Definition loop_head (waited : Z) : pay_pc :=
  if waited <? maxWaitMs then AtPoll waited else Done still_processing.

Definition success_payload (p : payment) : json :=
  JObj [("success", JBool true);
        ("paymentId", JNum (pay_id p));
        ("created_at", JNum (pay_created_at p))].

(** One awaited statement of the handler and what follows it up to the next
    one.  A rejection goes to the enclosing [catch]: the inner one while the
    payment is being made or recorded, the outer one elsewhere. *)
Definition handler_step (e : env) (d : db) (h : handler) : db * handler :=
  match pc h with
  | AtSelect =>
      match fault e with
      | Some m => (d, at_pc h (Done (server_error m)))
      | None =>
          match select_status_response (idempKey h) d with
          | None => (d, at_pc h (Done unknown_key))
          | Some (s, resp) =>
              if status_eqb s completed
              then (d, at_pc h (Done (Http 200 (opt_json resp))))
              else (d, at_pc h AtClaim)
          end
      end
  | AtClaim =>
      match fault e with
      | Some m => (d, at_pc h (Done (server_error m)))
      | None =>
          let (claimed, d') :=
            tryClaimKey (idempKey h) (Some (h_user_id h)) (now e) d in
          (d', at_pc h (if claimed then AtCharge else loop_head 0))
      end
  | AtCharge =>
      match fault e with
      | Some m => (d, at_pc h (AtFail m))
      | None =>
          let (p, d') := insert_payment (h_user_id h) (h_amount h) (now e) d in
          (d', at_pc h (AtComplete (success_payload p)))
      end
  | AtComplete payload =>
      match fault e with
      | Some m => (d, at_pc h (AtFail m))
      | None =>
          (record_outcome (idempKey h) completed payload (now e) d,
           at_pc h (Done (Http 200 payload)))
      end
  | AtFail message =>
      match fault e with
      | Some m => (d, at_pc h (Done (server_error m)))
      | None =>
          (record_outcome (idempKey h) failed
                          (JObj [("error", JStr message)]) (now e) d,
           at_pc h (Done (payment_failed message)))
      end
  | AtPoll waited =>
      match fault e with
      | Some m => (d, at_pc h (Done (server_error m)))
      | None =>
          match select_status_response (idempKey h) d with
          | None => (d, at_pc h (Done (server_error undefined_row_message)))
          | Some (s, resp) =>
              if status_eqb s completed
              then (d, at_pc h (Done (Http 200 (opt_json resp))))
              else if status_eqb s failed
              then (d, at_pc h (Done (previous_failed resp)))
              else (d, at_pc h (loop_head (waited + intervalMs)))
          end
      end
  | Done r => (d, h)
  end.

(** ** Running one handler among others *)

(** Between two statements of a handler the rest of the world may run: one
    turn is what the others did to the database since the handler's previous
    statement, and the environment of the handler's own statement. *)
Record turn : Type := Turn { t_others : db -> db; t_env : env }.

Definition alone (e : env) : turn := Turn (λ d, d) e.

(** The handler's statements, at most [fuel] of them, from turn [i] on.  The
    trace lists the points at which a statement was issued. *)
Fixpoint pay_run (fuel : nat) (w : nat -> turn) (i : nat) (d : db) (h : handler)
  : db * handler * list pay_pc :=
  match fuel with
  | O => (d, h, [])
  | S fuel' =>
      if is_done (pc h) then (d, h, [])
      else
        let (d', h') := handler_step (t_env (w i)) (t_others (w i) d) h in
        let '(d'', h'', tr) := pay_run fuel' w (S i) d' h' in
        (d'', h'', pc h :: tr)
  end.

Definition is_poll (p : pay_pc) : bool :=
  match p with AtPoll _ => true | _ => false end.
Definition is_charge (p : pay_pc) : bool :=
  match p with AtCharge => true | _ => false end.

Definition polls (tr : list pay_pc) : nat := length (filter (λ p, is_poll p = true) tr).
Definition charges (tr : list pay_pc) : nat := length (filter (λ p, is_charge p = true) tr).

(** A whole request served with nobody else running: the answer, the
    database afterwards and the trace.  No path of the handler issues more
    than 52 statements. *)
Definition serve (clock : nat -> env) (rq : pay_request) (d : db)
  : option http_response * db * list pay_pc :=
  match pay_begin rq with
  | inl r => (Some r, d, [])
  | inr h =>
      let '(d', h', tr) := pay_run 52 (λ i, alone (clock i)) 0 d h in
      (match pc h' with Done r => Some r | _ => None end, d', tr)
  end.

(** ** The service: any number of handlers over one database *)

Record system : Type := System { sys_db : db; sys_handlers : list handler }.

Inductive action : Type :=
| Issue (key : string) (date_now : Z) (user_id : option Z) (operation : option string)
| Arrive (rq : pay_request)      (* a POST /pay request enters *)
| Advance (i : nat)              (* handler [i] issues its next statement *)
| Sweep.                         (* cleanup_expired_keys.js runs *)

Definition sys_step (ttl : Z) (e : env) (a : action) (s : system) : system :=
  match a with
  | Issue key date_now user_id operation =>
      System (issue ttl key date_now e user_id operation (sys_db s)).2
             (sys_handlers s)
  | Arrive rq =>
      match pay_begin rq with
      | inl _ => s
      | inr h => System (sys_db s) (sys_handlers s ++ [h])
      end
  | Advance i =>
      match sys_handlers s !! i with
      | None => s
      | Some h =>
          let (d', h') := handler_step e (sys_db s) h in
          System d' (<[i := h']> (sys_handlers s))
      end
  | Sweep => System (cleanup e (sys_db s)).2 (sys_handlers s)
  end.

Fixpoint sys_run (ttl : Z) (sched : list (env * action)) (s : system) : system :=
  match sched with
  | [] => s
  | (e, a) :: rest => sys_run ttl rest (sys_step ttl e a s)
  end.

(** ** A race of claim attempts *)

(** Claim attempts on one key, each an atomic statement, in the order in
    which the database serialises them: caller and clock of each. *)
Fixpoint claim_race (key : string) (attempts : list (option Z * Z)) (d : db)
  : list bool * db :=
  match attempts with
  | [] => ([], d)
  | (user_id, t) :: rest =>
      let (won, d') := tryClaimKey key user_id t d in
      let (results, d'') := claim_race key rest d' in
      (won :: results, d'')
  end.

Definition wins (results : list bool) : nat :=
  length (filter (λ b, b = true) results).

(** ** GET /payments *)

(** [ORDER BY id DESC]: insertion into a list that is already in
    descending order of [id]. *)
Fixpoint insert_desc (p : payment) (l : list payment) : list payment :=
  match l with
  | [] => [p]
  | q :: rest =>
      if pay_id q <? pay_id p then p :: l else q :: insert_desc p rest
  end.

Definition order_by_id_desc (l : list payment) : list payment :=
  foldr insert_desc [] l.

(** [SELECT * FROM payments ORDER BY id DESC LIMIT 100]; the handler sends
    [q.rows]. *)
Definition get_payments (d : db) : list payment :=
  take 100 (order_by_id_desc (payments d)).

(** * Vocabulary of the properties *)

(** The key cannot be claimed: it has no record, or one that left
    [reserved]. *)
Definition not_reserved (key : string) (d : db) : Prop :=
  ∀ r, idempotency_keys d !! key = Some r → row_status r ≠ reserved.

(** What a caller must bring to win a [reserved] record: the owner
    condition and the reservation window, at the clock of the attempt. *)
Definition entitled (r : key_row) (a : option Z * Z) : Prop :=
  (row_user_id r = None ∨ row_user_id r = or_null a.1) ∧
  (row_reserved_until r = None ∨ ∃ u, row_reserved_until r = Some u ∧ a.2 < u).

(** What one poll finds: the SELECT is rejected, returns no row, or returns
    the status and response of the record. *)
Inductive sight : Type :=
| Rejected (message : string)
| Missing
| Seen (s : status) (response : option json).

Definition look (e : env) (d : db) (key : string) : sight :=
  match fault e with
  | Some m => Rejected m
  | None =>
      match select_status_response key d with
      | None => Missing
      | Some (s, resp) => Seen s resp
      end
  end.

(** The sight of the poll issued [j] polls after turn [i], the handler
    itself writing nothing in between. *)
Fixpoint sight_at (w : nat -> turn) (key : string) (i : nat) (d : db) (j : nat)
  : sight :=
  match j with
  | O => look (t_env (w i)) (t_others (w i) d) key
  | S j' => sight_at w key (S i) (t_others (w i) d) j'
  end.

Definition pending (s : sight) : Prop :=
  ∃ resp, s = Seen reserved resp ∨ s = Seen processing resp.

Definition poll_next (waited : Z) (s : sight) : pay_pc :=
  match s with
  | Rejected m => Done (server_error m)
  | Missing => Done (server_error undefined_row_message)
  | Seen completed resp => Done (Http 200 (opt_json resp))
  | Seen failed resp => Done (previous_failed resp)
  | Seen _ _ => loop_head (waited + intervalMs)
  end.

(** What the others did to the database over [n] turns from turn [i]. *)
Fixpoint drift (w : nat -> turn) (i : nat) (n : nat) (d : db) : db :=
  match n with
  | O => d
  | S n' => drift w (S i) n' (t_others (w i) d)
  end.

(** The sweeper runs between the failed claim and the first poll. *)
Definition swept_meanwhile (i : nat) : turn :=
  Turn (λ d, (delete_expired 5000 d).2) (calm 5000).

(** Requests served one after the other, each with its own clock. *)
Fixpoint serve_all (reqs : list ((nat -> env) * pay_request)) (d : db)
  : list (option http_response * list pay_pc) * db :=
  match reqs with
  | [] => ([], d)
  | (clock, rq) :: rest =>
      let out := serve clock rq d in
      let later := serve_all rest out.1.2 in
      ((out.1.1, out.2) :: later.1, later.2)
  end.

(** The answer a terminal record commands. *)
Definition stored_answer (r : key_row) : http_response :=
  match row_status r with
  | completed => Http 200 (opt_json (row_response r))
  | _ => previous_failed (row_response r)
  end.

(** A handler that won the claim and has not yet recorded the outcome. *)
Definition holding (p : pay_pc) : bool :=
  match p with
  | AtCharge | AtComplete _ | AtFail _ => true
  | _ => false
  end.

(** Records that are not terminal carry no response. *)
Definition unanswered (d : db) : Prop :=
  ∀ k r, idempotency_keys d !! k = Some r →
         terminal (row_status r) = false → row_response r = None.

(** What holds of the service at every moment: non-terminal records have no
    response; a handler between its claim and its outcome write finds its
    record [processing]; and no two such handlers share a key. *)
Record sound (s : system) : Prop := Sound {
  sound_null : unanswered (sys_db s);
  sound_held : ∀ i h, sys_handlers s !! i = Some h → holding (pc h) = true →
    ∃ r, idempotency_keys (sys_db s) !! idempKey h = Some r ∧
         row_status r = processing;
  sound_sole : ∀ i j h h',
    sys_handlers s !! i = Some h → sys_handlers s !! j = Some h' →
    holding (pc h) = true → holding (pc h') = true →
    idempKey h = idempKey h' → i = j
}.

(** One key issued for user 1, one request that wins the claim, pays and
    records [completed]. *)
Definition run_to_completed : list (env * action) :=
  [(calm 10, Issue "K" 10 (Some 1) (Some "pay"));
   (calm 20, Arrive (PayRequest (Some "K") (Some 1) (Some 100)));
   (calm 30, Advance 0); (calm 40, Advance 0);
   (calm 50, Advance 0); (calm 60, Advance 0)].

(** Then a second request on the key and a sweep, long after the window. *)
Definition run_after : list (env * action) :=
  [(calm 70, Arrive (PayRequest (Some "K") (Some 2) (Some 5)));
   (calm 80, Advance 1);
   (calm 100000000, Sweep);
   (Env 90 (Some "connection lost"), Advance 0)].

Definition completed_db : db :=
  Db {[ "K" := KeyRow completed (Some (JObj [("success", JBool true)]))
                      (Some 1) None (Some 1000) 0 60 ]}
     [Payment 1 1 100 50] 1.

(** The same key, its payment refused. *)
Definition failed_db : db :=
  Db {[ "K" := KeyRow failed (Some (JObj [("error", JStr "card declined")]))
                      (Some 1) None (Some 1000) 0 60 ]}
     [] 0.

Definition two_retries : list ((nat -> env) * pay_request) :=
  [(λ _, calm 70, PayRequest (Some "K") (Some 1) (Some 100));
   (λ _, calm 80, PayRequest (Some "K") (Some 2) (Some 7))].

(** The storage answers every statement but the third, the payment. *)
Definition payment_throws (n : nat) : env :=
  match n with
  | 2%nat => Env 50 (Some "insert or update on table payments violates constraint")
  | _ => calm (Z.of_nat n * 10 + 30)
  end.

Definition reserved_db : db :=
  Db {[ "K" := KeyRow reserved None (Some 1) None (Some 1000) 0 0 ]} [] 0.

(** Four records for the sweeper: an expired reservation, a live one, a
    claimed one whose window is long gone, and a reservation without
    window. *)
Definition mixed_db : db :=
  Db (<[ "expired" := KeyRow reserved None None None (Some 1000) 0 0 ]>
     (<[ "live" := KeyRow reserved None None None (Some 9000) 0 0 ]>
     (<[ "claimed" := KeyRow processing None None None (Some 1000) 0 500 ]>
     {[ "open" := KeyRow reserved None None None None 0 0 ]})))
     [] 0.

(** The winner of the claim records [completed] between the second and the
    third poll of a waiting handler. *)
Definition winner_completes (i : nat) : turn :=
  match i with
  | 2%nat => Turn (record_outcome "K" completed (JObj [("success", JBool true)]) 250)
                  (calm 260)
  | _ => alone (calm (Z.of_nat i * 100 + 60))
  end.

Definition processing_db : db :=
  Db {[ "K" := KeyRow processing None (Some 1) None (Some 1000) 0 40 ]} [] 0.

(** The winner of the claim records [failed] between the first and the
    second poll of a waiting handler. *)
Definition winner_fails (i : nat) : turn :=
  match i with
  | 1%nat => Turn (record_outcome "K" failed (JObj [("error", JStr "card declined")]) 150)
                  (calm 160)
  | _ => alone (calm (Z.of_nat i * 100 + 60))
  end.

(** Nobody writes while a handler waits. *)
Definition nobody_writes (i : nat) : turn := alone (calm (Z.of_nat i * 100 + 60)).






(** The rows of [payments] carry the values the sequence gave them, in the
    order of insertion: ids strictly increasing, none above the sequence. *)
Definition payments_in_order (d : db) : Prop :=
  (∀ i j p q, payments d !! i = Some p → payments d !! j = Some q →
              (i < j)%nat → pay_id p < pay_id q) ∧
  (∀ p, p ∈ payments d → pay_id p ≤ payments_id_seq d).

(** The records that left [reserved]: claimed, or already terminal. *)
Definition left_reserved (d : db) : gmap string key_row :=
  filter (λ kv, status_eqb (row_status kv.2) reserved = false)
         (idempotency_keys d).

(** What a request may do to the table of keys: to the record of its own
    key at most, and there neither to the owner, the operation, the window
    nor the creation time. *)
Definition own_record_only (key : string) (d d' : db) : Prop :=
  (∀ k, k ≠ key → idempotency_keys d' !! k = idempotency_keys d !! k) ∧
  (idempotency_keys d !! key = None → idempotency_keys d' !! key = None) ∧
  (∀ r, idempotency_keys d !! key = Some r →
        ∃ r', idempotency_keys d' !! key = Some r' ∧
              row_user_id r' = row_user_id r ∧
              row_operation r' = row_operation r ∧
              row_reserved_until r' = row_reserved_until r ∧
              row_created_at r' = row_created_at r).

(** The statement after which a handler cannot add a payment any more. *)
Definition past_charge (p : pay_pc) : bool :=
  match p with
  | AtSelect | AtClaim | AtCharge => false
  | _ => true
  end.

(** The row one step of the service inserts into [payments], with the key
    of the request whose handler inserts it: only the payment statement of a
    handler inserts, and only when the storage takes it. *)
Definition paid_by (e : env) (a : action) (s : system) : list (string * payment) :=
  match a with
  | Advance i =>
      match sys_handlers s !! i with
      | Some h =>
          match pc h, fault e with
          | AtCharge, None =>
              [(idempKey h,
                (insert_payment (h_user_id h) (h_amount h) (now e) (sys_db s)).1)]
          | _, _ => []
          end
      | None => []
      end
  | _ => []
  end.

(** The rows inserted over a schedule, each with its key, in order. *)
Fixpoint ledger (ttl : Z) (sched : list (env * action)) (s : system)
  : list (string * payment) :=
  match sched with
  | [] => []
  | (e, a) :: rest => (paid_by e a s ++ ledger ttl rest (sys_step ttl e a s))%list
  end.

(** The keys paid for so far: no key twice, each with a record that left
    [reserved], and none the key of a handler that has yet to pay. *)
Definition paid_once (keys : list string) (s : system) : Prop :=
  NoDup keys ∧
  (∀ k, k ∈ keys → ∃ r, idempotency_keys (sys_db s) !! k = Some r ∧
                        row_status r ≠ reserved) ∧
  (∀ i h, sys_handlers s !! i = Some h → pc h = AtCharge → idempKey h ∉ keys).

(** The row was inserted for a request of the service: one of its handlers
    has the key, the user and the amount, and is past its payment
    statement. *)
Definition paid_for (s : system) (kp : string * payment) : Prop :=
  ∃ i h, sys_handlers s !! i = Some h ∧ idempKey h = kp.1 ∧
         pay_user_id kp.2 = h_user_id h ∧ pay_amount kp.2 = h_amount h ∧
         past_charge (pc h) = true.

(** A request on ["K"] that pays, and a second one racing it: the second
    loses the claim and finds the key [completed] at its first poll. *)
Definition race_for_K : list (env * action) :=
  [(calm 10, Issue "K" 10 None (Some "pay"));
   (calm 20, Arrive (PayRequest (Some "K") (Some 1) (Some 100)));
   (calm 21, Arrive (PayRequest (Some "K") (Some 2) (Some 100)));
   (calm 30, Advance 0); (calm 31, Advance 1);
   (calm 40, Advance 0); (calm 41, Advance 1);
   (calm 50, Advance 0); (calm 60, Advance 0);
   (calm 70, Advance 1)].

(** Every handler that answered 200 sent the response stored under its key,
    in a [completed] record. *)
Definition answered_from_store (s : system) : Prop :=
  ∀ i h answer, sys_handlers s !! i = Some h →
    pc h = Done (Http 200 answer) →
    ∃ r, idempotency_keys (sys_db s) !! idempKey h = Some r ∧
         row_status r = completed ∧ opt_json (row_response r) = answer.

(** Descending order of [id]. *)
Definition id_desc (p q : payment) : Prop := pay_id q ≤ pay_id p.

(** Clocks and schedules of the examples: a storage that answers every
    statement; one that rejects the fourth statement of a request; one that
    rejects the third and the fourth; a first poll rejected; a retry among
    a sweep. *)
Definition steady (n : nat) : env := calm (Z.of_nat n * 10 + 30).

Definition complete_rejected (n : nat) : env :=
  match n with
  | 3%nat => Env 60 (Some "connection lost")
  | _ => steady n
  end.

Definition both_rejected (n : nat) : env :=
  match n with
  | 2%nat => Env 50 (Some "payment refused")
  | 3%nat => Env 60 (Some "connection lost")
  | _ => steady n
  end.

Definition select_rejected (n : nat) : env :=
  match n with
  | O => Env 30 (Some "down")
  | _ => steady n
  end.

Definition first_poll_rejected (i : nat) : turn :=
  match i with
  | O => alone (Env 10 (Some "timeout"))
  | _ => alone (calm 20)
  end.


Definition pay_K : pay_request := PayRequest (Some "K") (Some 1) (Some 100).

Definition reserved_row : key_row :=
  KeyRow reserved None (Some 1) None (Some 1000) 0 0.

(** * Properties *)

(** ** Claim arbiter *)

Lemma status_eqb_eq (a b : status) : status_eqb a b = true ↔ a = b.
Proof. destruct a, b; simpl; split; congruence. Qed.

Lemma owner_ok_iff (r : key_row) (p2 : option Z) :
  owner_ok r p2 = true ↔ row_user_id r = None ∨ row_user_id r = p2.
Proof.
  unfold owner_ok. destruct (row_user_id r) as [u|]; [|naive_solver].
  destruct p2 as [v|].
  - rewrite Z.eqb_eq. naive_solver.
  - naive_solver.
Qed.

Lemma window_open_iff (r : key_row) (t : Z) :
  window_open r t = true ↔
  row_reserved_until r = None ∨ ∃ u, row_reserved_until r = Some u ∧ t < u.
Proof.
  unfold window_open. destruct (row_reserved_until r) as [u|]; [|naive_solver].
  rewrite Z.ltb_lt. naive_solver.
Qed.

Lemma claimable_iff (r : key_row) (p2 : option Z) (t : Z) :
  claimable r p2 t = true ↔
  row_status r = reserved ∧
  (row_user_id r = None ∨ row_user_id r = p2) ∧
  (row_reserved_until r = None ∨ ∃ u, row_reserved_until r = Some u ∧ t < u).
Proof.
  unfold claimable. rewrite !andb_true_iff, status_eqb_eq, owner_ok_iff,
    window_open_iff. tauto.
Qed.

(** C2. One claim attempt returns true exactly when a record of the key
    exists, is [reserved], has no owner or the owner the caller sent
    ([user_id || null]), and has no [reserved_until] or one strictly after
    the statement's clock.  Then the record becomes [processing] with
    [updated_at] the clock, every other column, every other record and the
    payments as before; in every other case the database is the one it was.
    The owner sent is the caller's [user_id] unless that is 0. *)
Theorem tryClaimKey_spec (key : string) (user_id : option Z) (t : Z) (d : db) :
  let won := (tryClaimKey key user_id t d).1 in
  let after := (tryClaimKey key user_id t d).2 in
  (won = true ↔
     ∃ r, idempotency_keys d !! key = Some r ∧
          row_status r = reserved ∧
          (row_user_id r = None ∨ row_user_id r = or_null user_id) ∧
          (row_reserved_until r = None ∨
           ∃ u, row_reserved_until r = Some u ∧ t < u)) ∧
  (won = true →
     ∃ r, idempotency_keys d !! key = Some r ∧
          after =
            Db (<[key := KeyRow processing (row_response r) (row_user_id r)
                                (row_operation r) (row_reserved_until r)
                                (row_created_at r) t]> (idempotency_keys d))
               (payments d) (payments_id_seq d)) ∧
  (won = false → after = d) ∧
  (user_id ≠ Some 0 → or_null user_id = user_id).
Proof.
  assert (Hid : user_id ≠ Some 0 → or_null user_id = user_id).
  { destruct user_id as [n|]; [|done]. simpl.
    destruct (Z.eqb_spec n 0) as [->|]; done. }
  unfold tryClaimKey. destruct (idempotency_keys d !! key) as [r|] eqn:Hk.
  - destruct (claimable r (or_null user_id) t) eqn:Hc; simpl.
    + apply claimable_iff in Hc. split; [|split; [|split]]; [|eauto|done|done].
      split; [eauto|done].
    + split; [|split; [|split]]; [|done|done|done].
      split; [done|]. intros (r' & Hr' & Hrest). simplify_eq.
      apply claimable_iff in Hrest. congruence.
  - simpl. split; [|split; [|split]]; [|done|done|done].
    split; [done|]. intros (r' & Hr' & _). congruence.
Qed.

(** ** Expiry sweeper *)

Lemma expired_iff (t : Z) (r : key_row) :
  expired t r = true ↔
  row_status r = reserved ∧ ∃ u, row_reserved_until r = Some u ∧ u < t.
Proof.
  unfold expired. rewrite andb_true_iff, status_eqb_eq.
  destruct (row_reserved_until r) as [u|].
  - rewrite Z.ltb_lt. naive_solver.
  - naive_solver.
Qed.

Lemma delete_expired_lookup (t : Z) (d : db) (k : string) :
  idempotency_keys (delete_expired t d).2 !! k =
  match idempotency_keys d !! k with
  | Some r => if expired t r then None else Some r
  | None => None
  end.
Proof.
  unfold delete_expired; simpl. rewrite map_lookup_filter.
  destruct (idempotency_keys d !! k) as [r|]; simpl; [|done].
  destruct (expired t r); by case_guard.
Qed.

Lemma delete_expired_count (t : Z) (d : db) :
  (size (idempotency_keys d) =
   (delete_expired t d).1 + size (idempotency_keys (delete_expired t d).2))%nat.
Proof.
  unfold delete_expired; simpl.
  rewrite <- (map_filter_union_complement
                (λ kv : string * key_row, expired t kv.2 = true)
                (idempotency_keys d)) at 1.
  rewrite map_size_disj_union by apply map_disjoint_filter_complement.
  f_equal. f_equal. apply map_filter_ext. intros k r _; simpl.
  destruct (expired t r); naive_solver.
Qed.

(** C8. The sweep removes a record exactly when its status is [reserved]
    and its [reserved_until] is set and before the clock; every other
    record (whatever its status, whatever its [reserved_until]) is found
    afterwards as it was, no record appears, the payments are untouched, and
    the count returned is the number of records removed.  [cleanup] exits
    with 0 after logging that count, and changes nothing when the statement
    is rejected. *)
Theorem cleanup_spec (t : Z) (d : db) :
  let gone (r : key_row) :=
    row_status r = reserved ∧ ∃ u, row_reserved_until r = Some u ∧ u < t in
  let count := (delete_expired t d).1 in
  let after := (delete_expired t d).2 in
  (∀ k r, idempotency_keys d !! k = Some r → gone r →
          idempotency_keys after !! k = None) ∧
  (∀ k r, idempotency_keys d !! k = Some r → ¬ gone r →
          idempotency_keys after !! k = Some r) ∧
  (∀ k, idempotency_keys d !! k = None → idempotency_keys after !! k = None) ∧
  (size (idempotency_keys d) = count + size (idempotency_keys after))%nat ∧
  payments after = payments d ∧
  cleanup (calm t) d = (0, Some count, after) ∧
  (∀ m, (cleanup (Env t (Some m)) d).2 = d).
Proof.
  intros gone count after. subst count after.
  repeat split.
  - intros k r Hk Hg. rewrite delete_expired_lookup, Hk.
    apply expired_iff in Hg. by rewrite Hg.
  - intros k r Hk Hg. rewrite delete_expired_lookup, Hk.
    destruct (expired t r) eqn:He; [|done].
    apply expired_iff in He. contradiction.
  - intros k Hk. by rewrite delete_expired_lookup, Hk.
  - apply delete_expired_count.
Qed.

(** ** The race for a key *)

Lemma tryClaimKey_won (key : string) (user_id : option Z) (t : Z) (d : db) :
  (tryClaimKey key user_id t d).1 = true →
  ∃ r, idempotency_keys d !! key = Some r ∧
       claimable r (or_null user_id) t = true ∧
       (tryClaimKey key user_id t d).2 =
         with_keys d (<[key := claimed_row r t]> (idempotency_keys d)).
Proof.
  unfold tryClaimKey. destruct (idempotency_keys d !! key) as [r|]; [|done].
  destruct (claimable r (or_null user_id) t) eqn:Hc; [|done]. eauto.
Qed.

Lemma tryClaimKey_lost (key : string) (user_id : option Z) (t : Z) (d : db) :
  (tryClaimKey key user_id t d).1 = false →
  (tryClaimKey key user_id t d).2 = d.
Proof.
  unfold tryClaimKey. destruct (idempotency_keys d !! key) as [r|]; [|done].
  by destruct (claimable r (or_null user_id) t).
Qed.

Lemma tryClaimKey_not_reserved (key : string) (user_id : option Z) (t : Z) (d : db) :
  not_reserved key d → tryClaimKey key user_id t d = (false, d).
Proof.
  intros Hn. unfold tryClaimKey.
  destruct (idempotency_keys d !! key) as [r|] eqn:Hk; [|done].
  specialize (Hn r Hk). unfold claimable.
  destruct (status_eqb (row_status r) reserved) eqn:Hs; [|done].
  by apply status_eqb_eq in Hs.
Qed.

Lemma tryClaimKey_takes (key : string) (user_id : option Z) (t : Z) (d : db) :
  (tryClaimKey key user_id t d).1 = true →
  not_reserved key (tryClaimKey key user_id t d).2.
Proof.
  intros (r & Hk & _ & ->)%tryClaimKey_won r'. simpl.
  rewrite lookup_insert_eq. by intros [= <-].
Qed.

Lemma claim_race_not_reserved (key : string) (attempts : list (option Z * Z)) (d : db) :
  not_reserved key d →
  claim_race key attempts d = (replicate (length attempts) false, d).
Proof.
  intros Hn. induction attempts as [|[u t] rest IH]; simpl; [done|].
  by rewrite tryClaimKey_not_reserved, IH.
Qed.

Lemma wins_replicate_false (n : nat) : wins (replicate n false) = 0%nat.
Proof. induction n; [done|]. unfold wins in *; simpl.
  rewrite filter_cons_False; [done|]. done. Qed.

Lemma wins_cons (b : bool) (l : list bool) :
  wins (b :: l) = ((if b then 1 else 0) + wins l)%nat.
Proof.
  unfold wins. destruct b.
  - by rewrite filter_cons_True.
  - by rewrite filter_cons_False.
Qed.

Lemma claim_race_cons (key : string) (u : option Z) (t : Z)
    (rest : list (option Z * Z)) (d : db) :
  claim_race key ((u, t) :: rest) d =
  ((tryClaimKey key u t d).1 :: (claim_race key rest (tryClaimKey key u t d).2).1,
   (claim_race key rest (tryClaimKey key u t d).2).2).
Proof.
  simpl. destruct (tryClaimKey key u t d) as [won d']; simpl.
  destruct (claim_race key rest d'); reflexivity.
Qed.

Lemma claim_race_at_most_one (key : string) (attempts : list (option Z * Z)) (d : db) :
  (wins (claim_race key attempts d).1 ≤ 1)%nat.
Proof.
  revert d. induction attempts as [|[u t] rest IH]; intros d.
  - simpl. unfold wins. simpl. lia.
  - rewrite claim_race_cons; simpl. rewrite wins_cons.
    destruct (tryClaimKey key u t d).1 eqn:Hw.
    + rewrite claim_race_not_reserved by by apply tryClaimKey_takes.
      simpl. rewrite wins_replicate_false. lia.
    + specialize (IH (tryClaimKey key u t d).2). lia.
Qed.

Lemma claim_race_while_reserved (key : string) (attempts : list (option Z * Z))
    (d : db) (i : nat) :
  (claim_race key attempts d).1 !! i = Some true →
  ∃ r, idempotency_keys (claim_race key (take i attempts) d).2 !! key = Some r ∧
       row_status r = reserved.
Proof.
  revert d i. induction attempts as [|[u t] rest IH]; intros d i.
  - simpl. by rewrite lookup_nil.
  - destruct i as [|i].
    + rewrite claim_race_cons. simpl.
      intros [= Hw]. apply tryClaimKey_won in Hw as (r & Hk & Hc & _).
      exists r. split; [done|]. by apply claimable_iff in Hc as (? & _).
    + change (take (S i) ((u, t) :: rest)) with ((u, t) :: take i rest).
      rewrite !claim_race_cons. simpl. apply IH.
Qed.

Lemma claim_race_unique (key : string) (attempts : list (option Z * Z))
    (d : db) (i j : nat) :
  (claim_race key attempts d).1 !! i = Some true →
  (claim_race key attempts d).1 !! j = Some true →
  i = j.
Proof.
  revert d i j. induction attempts as [|[u t] rest IH]; intros d i j.
  - simpl. by rewrite lookup_nil.
  - rewrite claim_race_cons; simpl.
    destruct (tryClaimKey key u t d).1 eqn:Hw.
    + rewrite claim_race_not_reserved by by apply tryClaimKey_takes.
      simpl. destruct i as [|i], j as [|j]; simpl; try done.
      * by intros _ [? _]%lookup_replicate.
      * by intros [? _]%lookup_replicate.
      * by intros [? _]%lookup_replicate.
    + destruct i as [|i], j as [|j]; simpl; try done.
      intros Hi Hj. f_equal. by eapply IH.
Qed.

Lemma claim_race_winner (key : string) (attempts : list (option Z * Z))
    (d : db) (r : key_row) :
  idempotency_keys d !! key = Some r →
  Exists (λ a : option Z * Z, claimable r (or_null a.1) a.2 = true) attempts →
  wins (claim_race key attempts d).1 = 1%nat.
Proof.
  intros Hk. induction 1 as [[u t] rest Hc|[u t] rest _ IH];
    rewrite claim_race_cons; simpl; rewrite wins_cons.
  - simpl in Hc. unfold tryClaimKey at 1 2. rewrite Hk, Hc. simpl.
    rewrite claim_race_not_reserved.
    + simpl. by rewrite wins_replicate_false.
    + intros r'. simpl. rewrite lookup_insert_eq. by intros [= <-].
  - destruct (tryClaimKey key u t d).1 eqn:Hw.
    + rewrite claim_race_not_reserved by by apply tryClaimKey_takes.
      simpl. by rewrite wins_replicate_false.
    + rewrite tryClaimKey_lost by done. by rewrite IH.
Qed.

Lemma claim_race_no_taker (key : string) (attempts : list (option Z * Z))
    (d : db) (r : key_row) :
  idempotency_keys d !! key = Some r →
  Forall (λ a : option Z * Z, claimable r (or_null a.1) a.2 = false) attempts →
  claim_race key attempts d = (replicate (length attempts) false, d).
Proof.
  intros Hk. induction 1 as [|[u t] rest Hc _ IH]; [done|].
  rewrite claim_race_cons. simpl in Hc.
  unfold tryClaimKey. rewrite Hk, Hc. simpl. by rewrite IH.
Qed.

(** ** Wait coordinator: the short-poll loop *)

Lemma handler_step_poll (e : env) (d : db) (h : handler) (waited : Z) :
  pc h = AtPoll waited →
  handler_step e d h = (d, at_pc h (poll_next waited (look e d (idempKey h)))).
Proof.
  intros Hpc. unfold handler_step, look. rewrite Hpc.
  destruct (fault e); [done|].
  destruct (select_status_response (idempKey h) d) as [[[] resp]|]; done.
Qed.

Lemma pay_run_done (fuel : nat) (w : nat -> turn) (i : nat) (d : db) (h : handler) :
  is_done (pc h) = true → pay_run fuel w i d h = (d, h, []).
Proof. intros Hd. destruct fuel; simpl; [done|]. by rewrite Hd. Qed.

Lemma pay_run_step (fuel : nat) (w : nat -> turn) (i : nat) (d : db) (h : handler) :
  is_done (pc h) = false →
  pay_run (S fuel) w i d h =
  let s := handler_step (t_env (w i)) (t_others (w i) d) h in
  let r := pay_run fuel w (S i) s.1 s.2 in
  (r.1.1, r.1.2, pc h :: r.2).
Proof.
  intros Hd. simpl. rewrite Hd.
  destruct (handler_step _ _ h) as [d' h']; simpl.
  by destruct (pay_run fuel w (S i) d' h') as [[??]?].
Qed.

Lemma pay_run_poll (fuel : nat) (w : nat -> turn) (i : nat) (d : db) (h : handler)
    (waited : Z) :
  pc h = AtPoll waited →
  pay_run (S fuel) w i d h =
  let r := pay_run fuel w (S i) (t_others (w i) d)
             (at_pc h (poll_next waited (sight_at w (idempKey h) i d 0))) in
  (r.1.1, r.1.2, AtPoll waited :: r.2).
Proof.
  intros Hpc. rewrite pay_run_step by by rewrite Hpc.
  rewrite (handler_step_poll _ _ _ waited Hpc). simpl. by rewrite Hpc.
Qed.

(** More fuel changes nothing once the response was sent. *)
Lemma pay_run_more (n extra : nat) (w : nat -> turn) (i : nat) (d : db) (h : handler) :
  is_done (pc (pay_run n w i d h).1.2) = true →
  pay_run (n + extra) w i d h = pay_run n w i d h.
Proof.
  revert i d h. induction n as [|n IH]; intros i d h; simpl.
  - intros Hd. by apply pay_run_done.
  - destruct (is_done (pc h)) eqn:Hd; [done|].
    destruct (handler_step _ _ h) as [d' h'].
    specialize (IH (S i) d' h').
    destruct (pay_run n w (S i) d' h') as [[d2 h2] tr] eqn:Hr; simpl in *.
    intros Hdone. by rewrite IH.
Qed.

Arguments pay_run : simpl never.

Lemma loop_head_poll (k : nat) :
  (S k < 50)%nat →
  loop_head (intervalMs * Z.of_nat k + intervalMs) = AtPoll (intervalMs * Z.of_nat (S k)).
Proof.
  intros Hk. unfold loop_head, maxWaitMs, intervalMs.
  destruct (Z.ltb_spec (100 * Z.of_nat k + 100) 5000); [f_equal; lia|lia].
Qed.

Lemma loop_head_timeout (k : nat) :
  (50 ≤ S k)%nat →
  loop_head (intervalMs * Z.of_nat k + intervalMs) = Done still_processing.
Proof.
  intros Hk. unfold loop_head, maxWaitMs, intervalMs.
  destruct (Z.ltb_spec (100 * Z.of_nat k + 100) 5000); [lia|done].
Qed.

Lemma drift_alone (clock : nat -> env) (i n : nat) (d : db) :
  drift (λ i, alone (clock i)) i n d = d.
Proof. revert i. induction n as [|n IH]; intros i; simpl; [done|apply IH]. Qed.

Lemma poll_next_cases (waited : Z) (s : sight) :
  (pending s ∧ poll_next waited s = loop_head (waited + intervalMs)) ∨
  (¬ pending s ∧ is_done (poll_next waited s) = true ∧
   poll_next waited s = poll_next 0 s).
Proof.
  destruct s as [m| |[] resp]; simpl.
  - right. split; [|done]. by intros [? [|]].
  - right. split; [|done]. by intros [? [|]].
  - left. split; [|done]. exists resp. by left.
  - left. split; [|done]. exists resp. by right.
  - right. split; [|done]. by intros [? [|]].
  - right. split; [|done]. by intros [? [|]].
Qed.

Section wait_loop.
Variable w : nat -> turn.

(** The loop ends within the polls it has left, issuing polls only. *)
Lemma wait_loop_ends (m : nat) :
  ∀ (k i : nat) (d : db) (h : handler),
    (k + m = 50)%nat → (0 < m)%nat →
    pc h = AtPoll (intervalMs * Z.of_nat k) →
    let r := pay_run m w i d h in
    is_done (pc r.1.2) = true ∧ (length r.2 ≤ m)%nat ∧
    Forall (λ p, is_poll p = true) r.2 ∧
    r.1.1 = drift w i (length r.2) d.
Proof.
  induction m as [|m IH]; intros k i d h Hkm Hm Hpc; [lia|].
  rewrite (pay_run_poll _ _ _ _ _ _ Hpc).
  destruct (poll_next_cases (intervalMs * Z.of_nat k)
              (sight_at w (idempKey h) i d 0)) as [[_ ->]|(_ & Hd & _)].
  - destruct (decide (S k < 50)%nat) as [Hlt|Hge].
    + rewrite loop_head_poll by done.
      destruct (IH (S k) (S i) (t_others (w i) d)
                  (at_pc h (AtPoll (intervalMs * Z.of_nat (S k)))))
        as (H1 & H2 & H3 & H4); [lia|lia|done|].
      simpl. repeat split; [done|lia| |done].
      constructor; done.
    + rewrite loop_head_timeout by lia.
      rewrite pay_run_done by done. simpl.
      repeat split; [lia|]. constructor; done.
  - rewrite pay_run_done by done. simpl.
    repeat split; [done|lia|]. constructor; done.
Qed.

(** The first poll that does not find the record [reserved] or
    [processing] ends the loop, with the answer that sight commands. *)
Lemma wait_loop_first (j : nat) :
  ∀ (m k i : nat) (d : db) (h : handler),
    (k + m = 50)%nat → (j < m)%nat →
    pc h = AtPoll (intervalMs * Z.of_nat k) →
    (∀ j', (j' < j)%nat → pending (sight_at w (idempKey h) i d j')) →
    ¬ pending (sight_at w (idempKey h) i d j) →
    let r := pay_run m w i d h in
    pc r.1.2 = poll_next 0 (sight_at w (idempKey h) i d j) ∧
    length r.2 = S j.
Proof.
  induction j as [|j IH]; intros m k i d h Hkm Hj Hpc Hbefore Hnow;
    (destruct m as [|m]; [lia|]); rewrite (pay_run_poll _ _ _ _ _ _ Hpc).
  - destruct (poll_next_cases (intervalMs * Z.of_nat k)
                (sight_at w (idempKey h) i d 0)) as [[Hp _]|(_ & Hd & Heq)];
      [contradiction|].
    rewrite Heq in Hd |- *. by rewrite pay_run_done.
  - destruct (poll_next_cases (intervalMs * Z.of_nat k)
                (sight_at w (idempKey h) i d 0)) as [[_ ->]|(Hp & _)].
    + rewrite loop_head_poll by lia.
      destruct (IH m (S k) (S i) (t_others (w i) d)
                  (at_pc h (AtPoll (intervalMs * Z.of_nat (S k)))))
        as (H1 & H2); [lia|lia|done| |done|].
      * intros j' Hj'. apply (Hbefore (S j')). lia.
      * simpl. split; [exact H1|]. by rewrite H2.
    + destruct Hp. apply (Hbefore O). lia.
Qed.

(** Polls that all find the record [reserved] or [processing] use up the
    window: the answer is the 202. *)
Lemma wait_loop_timeout (m : nat) :
  ∀ (k i : nat) (d : db) (h : handler),
    (k + m = 50)%nat → (0 < m)%nat →
    pc h = AtPoll (intervalMs * Z.of_nat k) →
    (∀ j, (j < m)%nat → pending (sight_at w (idempKey h) i d j)) →
    let r := pay_run m w i d h in
    pc r.1.2 = Done still_processing ∧ length r.2 = m ∧
    r.2 = map (λ n, AtPoll (intervalMs * Z.of_nat n)) (seq k m).
Proof.
  induction m as [|m IH]; intros k i d h Hkm Hm Hpc Hall; [lia|].
  rewrite (pay_run_poll _ _ _ _ _ _ Hpc).
  destruct (poll_next_cases (intervalMs * Z.of_nat k)
              (sight_at w (idempKey h) i d 0)) as [[_ ->]|(Hp & _)].
  - destruct (decide (S k < 50)%nat) as [Hlt|Hge].
    + rewrite loop_head_poll by done.
      destruct (IH (S k) (S i) (t_others (w i) d)
                  (at_pc h (AtPoll (intervalMs * Z.of_nat (S k)))))
        as (H1 & H2 & H3); [lia|lia|done| |].
      * intros j Hj. apply (Hall (S j)). lia.
      * simpl. split; [exact H1|]. split; [by rewrite H2|by rewrite H3].
    + rewrite loop_head_timeout by lia.
      rewrite pay_run_done by done. simpl.
      assert (m = 0%nat) as -> by lia. done.
  - destruct Hp. apply (Hall O). lia.
Qed.
End wait_loop.

Lemma polls_all (tr : list pay_pc) :
  Forall (λ p, is_poll p = true) tr → polls tr = length tr.
Proof.
  unfold polls. induction 1 as [|p tr Hp _ IH]; [done|].
  rewrite filter_cons_True by done. simpl. by rewrite IH.
Qed.

Lemma handler_step_claim_lost (e : env) (d : db) (h : handler) :
  fault e = None →
  (tryClaimKey (idempKey h) (Some (h_user_id h)) (now e) d).1 = false →
  handler_step e d (at_pc h AtClaim) = (d, at_pc h (loop_head 0)).
Proof.
  intros He Hlost. unfold handler_step; simpl. rewrite He.
  pose proof (tryClaimKey_lost _ _ _ _ Hlost) as Hsame.
  destruct (tryClaimKey (idempKey h) (Some (h_user_id h)) (now e) d) as [won d1].
  simpl in *. by subst.
Qed.

(** C7. A handler whose claim attempt returned false enters the wait loop,
    and the loop ends after at most 50 = ceil(maxWaitMs / intervalMs) polls
    whatever the other processes do and whatever the polls return, issuing
    nothing but polls.  If the first poll that does not find the record
    [reserved] or [processing] finds it [completed] with response [P], the
    answer is 200 with body [P]; if it finds it [failed] with response [P],
    the answer is 500 [{error: "Previous attempt failed", detail: P}] (a
    null response is sent as null in both cases); and if all 50 polls find
    it [reserved] or [processing], the answer is 202 [{status:
    "processing", message: ...}]. *)
Theorem wait_loop_bounded (w : nat -> turn) (i : nat) (d : db) (h : handler) :
  let key := idempKey h in
  let waiting := at_pc h (loop_head 0) in
  let r := pay_run 50 w i d waiting in
  (∀ e d0, fault e = None →
     (tryClaimKey key (Some (h_user_id h)) (now e) d0).1 = false →
     handler_step e d0 (at_pc h AtClaim) = (d0, waiting)) ∧
  (maxWaitMs + intervalMs - 1) / intervalMs = 50 ∧
  (∃ answer, pc r.1.2 = Done answer) ∧
  (polls r.2 ≤ 50)%nat ∧
  polls r.2 = length r.2 ∧
  (∀ fuel, (50 ≤ fuel)%nat → pay_run fuel w i d waiting = r) ∧
  (∀ j resp, (j < 50)%nat →
     (∀ j', (j' < j)%nat → pending (sight_at w key i d j')) →
     sight_at w key i d j = Seen completed resp →
     polls r.2 = S j ∧
     (∀ P, resp = Some P → pc r.1.2 = Done (Http 200 P)) ∧
     (resp = None → pc r.1.2 = Done (Http 200 JNull))) ∧
  (∀ j resp, (j < 50)%nat →
     (∀ j', (j' < j)%nat → pending (sight_at w key i d j')) →
     sight_at w key i d j = Seen failed resp →
     polls r.2 = S j ∧
     (∀ P, resp = Some P →
        pc r.1.2 = Done (Http 500 (JObj [("error", JStr "Previous attempt failed");
                                         ("detail", P)]))) ∧
     (resp = None →
        pc r.1.2 = Done (Http 500 (JObj [("error", JStr "Previous attempt failed");
                                         ("detail", JNull)])))) ∧
  ((∀ j, (j < 50)%nat → pending (sight_at w key i d j)) →
     pc r.1.2 =
       Done (Http 202
               (JObj [("status", JStr "processing");
                      ("message",
                       JStr "Request being processed; check status endpoint.")])) ∧
     polls r.2 = 50%nat).
Proof.
  intros key waiting r.
  assert (Hpc : pc waiting = AtPoll (intervalMs * Z.of_nat 0)) by done.
  destruct (wait_loop_ends w 50 0 i d waiting) as (Hdone & Hlen & Hpolls & _);
    [done|lia|done|].
  fold r in Hdone, Hlen, Hpolls.
  pose proof (polls_all _ Hpolls) as Hcount.
  assert (Hfirst : ∀ j s, (j < 50)%nat →
            (∀ j', (j' < j)%nat → pending (sight_at w key i d j')) →
            sight_at w key i d j = s → ¬ pending s →
            pc r.1.2 = poll_next 0 s ∧ polls r.2 = S j).
  { intros j s Hj Hbefore Hnow Hs.
    destruct (wait_loop_first w j 50 0 i d waiting) as (H1 & H2);
      [done|done|done|done| |].
    - change (idempKey waiting) with key. by rewrite Hnow.
    - fold r in H1, H2. change (idempKey waiting) with key in H1.
      rewrite Hnow in H1. split; [done|lia]. }
  split; [|split; [|split; [|split; [|split; [|split; [|split; [|split]]]]]]].
  - intros e d0. apply handler_step_claim_lost.
  - reflexivity.
  - destruct (pc r.1.2); try done. eauto.
  - lia.
  - done.
  - intros fuel Hfuel. replace fuel with (50 + (fuel - 50))%nat by lia.
    by apply pay_run_more.
  - intros j resp Hj Hbefore Hnow.
    destruct (Hfirst j _ Hj Hbefore Hnow) as (H1 & H2); [by intros [? [|]]|].
    split; [done|]. split; [intros P ->|intros ->]; exact H1.
  - intros j resp Hj Hbefore Hnow.
    destruct (Hfirst j _ Hj Hbefore Hnow) as (H1 & H2); [by intros [? [|]]|].
    split; [done|]. split; [intros P ->|intros ->]; exact H1.
  - intros Hall.
    destruct (wait_loop_timeout w 50 0 i d waiting) as (H1 & H2 & _);
      [done|lia|done|done|].
    fold r in H1, H2. split; [exact H1|lia].
Qed.

Lemma look_missing (e : env) (d : db) (key : string) :
  look e d key = Missing ↔ fault e = None ∧ idempotency_keys d !! key = None.
Proof.
  unfold look, select_status_response.
  destruct (fault e); [naive_solver|].
  destruct (idempotency_keys d !! key); naive_solver.
Qed.

(** C9. The poll loop reads [rows[0].status] unguarded.  When a poll of the
    loop finds no record of the key (the polls before it, if any, having
    found it [reserved] or [processing]), the handler answers 500 "Server
    error" with the TypeError's message, where the same absent record at
    entry is answered 400 "Unknown idempotency key". *)
Theorem poll_missing_row (w : nat -> turn) (i : nat) (d : db) (h : handler) (j : nat)
    (Hj : (j < 50)%nat)
    (Hbefore : ∀ j', (j' < j)%nat → pending (sight_at w (idempKey h) i d j'))
    (Hgone : sight_at w (idempKey h) i d j = Missing) :
  let r := pay_run 50 w i d (at_pc h (loop_head 0)) in
  pc r.1.2 = Done (server_error undefined_row_message) ∧
  code (server_error undefined_row_message) = 500 ∧
  field "error" (body (server_error undefined_row_message))
    = Some (JStr "Server error") ∧
  polls r.2 = S j ∧
  (∀ e d0, look e d0 (idempKey h) = Missing →
     (handler_step e d0 (at_pc h (AtPoll (intervalMs * Z.of_nat j)))).2
       = at_pc h (Done (server_error undefined_row_message)) ∧
     (handler_step e d0 (at_pc h AtSelect)).2 = at_pc h (Done unknown_key)) ∧
  code unknown_key = 400.
Proof.
  intros r.
  destruct (wait_loop_first w j 50 0 i d (at_pc h (loop_head 0))) as (H1 & H2);
    [done|done|done|done| |].
  { simpl. rewrite Hgone. by intros [? [|]]. }
  destruct (wait_loop_ends w 50 0 i d (at_pc h (loop_head 0)))
    as (_ & _ & Hpolls & _); [done|lia|done|].
  fold r in H1, H2, Hpolls. simpl in H1. rewrite Hgone in H1.
  split; [done|]. split; [done|]. split; [done|].
  split; [by rewrite polls_all|]. split; [|done].
  intros e d0 Hlook. split.
  - rewrite (handler_step_poll _ _ _ (intervalMs * Z.of_nat j)) by done.
    simpl. by rewrite Hlook.
  - apply look_missing in Hlook as [He Hk]. unfold handler_step; simpl.
    unfold select_status_response. by rewrite He, Hk.
Qed.

Lemma poll_missing_row_swept :
  let d := Db {[ "K" := KeyRow reserved None None None (Some 1000) 0 0 ]} [] 0 in
  let h := Handler "K" 1 100 AtClaim in
  (tryClaimKey "K" (Some 1) 4000 d) = (false, d) ∧
  let r := pay_run 50 swept_meanwhile 0 d (at_pc h (loop_head 0)) in
  pc r.1.2 = Done (server_error undefined_row_message) ∧
  code (server_error undefined_row_message) = 500 ∧
  field "error" (body (server_error undefined_row_message))
    = Some (JStr "Server error") ∧
  polls r.2 = 1%nat ∧
  (∀ e d0, look e d0 "K" = Missing →
     (handler_step e d0 (at_pc h (AtPoll (intervalMs * Z.of_nat 0)))).2
       = at_pc h (Done (server_error undefined_row_message)) ∧
     (handler_step e d0 (at_pc h AtSelect)).2 = at_pc h (Done unknown_key)) ∧
  code unknown_key = 400.
Proof.
  split; [vm_compute; reflexivity|].
  apply (poll_missing_row swept_meanwhile 0
           (Db {[ "K" := KeyRow reserved None None None (Some 1000) 0 0 ]} [] 0)
           (Handler "K" 1 100 AtClaim) 0).
  - lia.
  - intros j' Hj'. lia.
  - vm_compute. reflexivity.
Defined.

(** ** Requests served one at a time *)

Lemma pay_begin_accepted (rq : pay_request) (h : handler) :
  pay_begin rq = inr h →
  pc h = AtSelect ∧
  or_null_str (req_key rq) = Some (idempKey h) ∧
  or_null (req_user_id rq) = Some (h_user_id h) ∧
  or_null (req_amount rq) = Some (h_amount h).
Proof.
  unfold pay_begin. destruct (or_null_str (req_key rq)) as [k|]; [|done].
  destruct (or_null (req_user_id rq)) as [u|]; [|done].
  destruct (or_null (req_amount rq)) as [a|]; [|done].
  by intros [= <-].
Qed.

Lemma step_select (e : env) (d : db) (h : handler) (r : key_row) :
  pc h = AtSelect → fault e = None →
  idempotency_keys d !! idempKey h = Some r →
  handler_step e d h =
  (d, at_pc h (if status_eqb (row_status r) completed
               then Done (Http 200 (opt_json (row_response r)))
               else AtClaim)).
Proof.
  intros Hpc He Hk. unfold handler_step, select_status_response.
  rewrite Hpc, He, Hk. by destruct (status_eqb (row_status r) completed).
Qed.

Lemma step_claim (e : env) (d : db) (h : handler) :
  pc h = AtClaim → fault e = None →
  handler_step e d h =
  ((tryClaimKey (idempKey h) (Some (h_user_id h)) (now e) d).2,
   at_pc h (if (tryClaimKey (idempKey h) (Some (h_user_id h)) (now e) d).1
            then AtCharge else loop_head 0)).
Proof.
  intros Hpc He. unfold handler_step. rewrite Hpc, He.
  by destruct (tryClaimKey (idempKey h) (Some (h_user_id h)) (now e) d).
Qed.

Lemma tryClaimKey_unclaimable (key : string) (user_id : option Z) (t : Z)
    (d : db) (r : key_row) :
  idempotency_keys d !! key = Some r →
  claimable r (or_null user_id) t = false →
  tryClaimKey key user_id t d = (false, d).
Proof. intros Hk Hc. unfold tryClaimKey. by rewrite Hk, Hc. Qed.

Lemma sight_alone (clock : nat -> env) (key : string) (d : db) (s : sight) (j : nat) :
  ∀ i, (∀ n, look (clock n) d key = s) →
       sight_at (λ i, alone (clock i)) key i d j = s.
Proof. induction j as [|j IH]; intros i Hs; simpl; [apply Hs|by apply IH]. Qed.

(** C10. A record still [reserved] whose [reserved_until] is not after the
    clock of the claim statement, and that nobody removes or changes: a
    well-formed POST /pay presenting its key, the storage answering, loses
    the claim, issues no payment, polls 50 times (the whole window of 5000 ms
    at 100 ms a poll) and answers 202 "processing", leaving the database as
    it was. *)
Theorem expired_reserved_times_out (clock : nat -> env) (rq : pay_request)
    (d : db) (h : handler) (r : key_row) (t : Z)
    (Hrq : pay_begin rq = inr h)
    (Hrow : idempotency_keys d !! idempKey h = Some r)
    (Hstatus : row_status r = reserved)
    (Huntil : row_reserved_until r = Some t)
    (Hcalm : ∀ n, fault (clock n) = None)
    (Hpassed : t ≤ now (clock 1%nat)) :
  let out := serve clock rq d in
  out.1.1 = Some still_processing ∧
  code still_processing = 202 ∧
  field "status" (body still_processing) = Some (JStr "processing") ∧
  out.1.2 = d ∧
  polls out.2 = 50%nat ∧
  charges out.2 = 0%nat ∧
  out.2 = AtSelect :: AtClaim ::
            map (λ k, AtPoll (intervalMs * Z.of_nat k)) (seq 0 50) ∧
  (tryClaimKey (idempKey h) (Some (h_user_id h)) (now (clock 1%nat)) d).1 = false.
Proof.
  destruct (pay_begin_accepted _ _ Hrq) as (Hpc & _).
  assert (Hlost : tryClaimKey (idempKey h) (Some (h_user_id h))
                    (now (clock 1%nat)) d = (false, d)).
  { apply (tryClaimKey_unclaimable _ _ _ _ r Hrow).
    unfold claimable, window_open. rewrite Huntil.
    destruct (Z.ltb_spec (now (clock 1%nat)) t); [lia|].
    by rewrite andb_false_r. }
  set (w := λ i : nat, alone (clock i)).
  set (waiting := at_pc (at_pc h AtClaim) (loop_head 0)).
  assert (Hsights : ∀ i j, sight_at w (idempKey waiting) i d j
                           = Seen reserved (row_response r)).
  { intros i j. apply sight_alone. intros n. unfold look, select_status_response.
    rewrite (Hcalm n). simpl. by rewrite Hrow, Hstatus. }
  destruct (wait_loop_timeout w 50 0 2 d waiting) as (Hans & Hlen & Htr);
    [done|lia|done| |].
  { intros j _. rewrite Hsights. eexists. by left. }
  destruct (wait_loop_ends w 50 0 2 d waiting) as (_ & _ & Hpolls & Hdb);
    [done|lia|done|].
  unfold w in Hdb. rewrite drift_alone in Hdb. fold w in Hdb.
  assert (Hrun : pay_run 52 w 0 d h =
            ((pay_run 50 w 2 d waiting).1.1, (pay_run 50 w 2 d waiting).1.2,
             AtSelect :: AtClaim :: (pay_run 50 w 2 d waiting).2)).
  { rewrite pay_run_step by by rewrite Hpc. simpl t_others. simpl t_env.
    rewrite (step_select _ _ _ r Hpc (Hcalm _) Hrow).
    rewrite Hstatus. simpl status_eqb. cbv iota. cbv zeta. simpl fst. simpl snd.
    rewrite pay_run_step by done. simpl t_others. simpl t_env.
    rewrite (step_claim _ _ (at_pc h AtClaim) eq_refl (Hcalm _)).
    simpl idempKey. simpl h_user_id. rewrite Hlost. cbv zeta. simpl fst. simpl snd.
    cbv iota. by rewrite Hpc. }
  unfold serve. rewrite Hrq. fold w. rewrite Hrun.
  cbv beta iota zeta. rewrite Hans, Hdb, Htr. cbn [fst snd].
  split; [done|]. split; [done|]. split; [done|]. split; [done|].
  split; [vm_compute; reflexivity|]. split; [vm_compute; reflexivity|].
  split; [done|]. by rewrite Hlost.
Qed.

Lemma serve_terminal (clock : nat -> env) (rq : pay_request) (d : db)
    (h : handler) (r : key_row) :
  pay_begin rq = inr h →
  (∀ n, fault (clock n) = None) →
  idempotency_keys d !! idempKey h = Some r →
  terminal (row_status r) = true →
  serve clock rq d =
  (Some (stored_answer r), d,
   if status_eqb (row_status r) completed then [AtSelect]
   else [AtSelect; AtClaim; AtPoll 0]).
Proof.
  intros Hrq Hcalm Hrow Hterm.
  destruct (pay_begin_accepted _ _ Hrq) as (Hpc & _).
  unfold serve. rewrite Hrq.
  rewrite pay_run_step by by rewrite Hpc. simpl t_others. simpl t_env.
  rewrite (step_select _ _ _ r Hpc (Hcalm _) Hrow).
  unfold stored_answer.
  destruct (row_status r) eqn:Hs; try done; simpl status_eqb; cbv beta iota zeta;
    cbn [fst snd].
  - rewrite pay_run_done by done. by rewrite Hpc.
  - rewrite pay_run_step by done. simpl t_others. simpl t_env.
    rewrite (step_claim _ _ (at_pc h AtClaim) eq_refl (Hcalm _)).
    simpl idempKey. simpl h_user_id.
    rewrite (tryClaimKey_unclaimable _ _ _ _ r Hrow).
    2:{ unfold claimable. by rewrite Hs. }
    cbv beta iota zeta. cbn [fst snd].
    rewrite (pay_run_poll _ _ _ _ _ 0) by done.
    simpl sight_at. unfold look, select_status_response.
    rewrite (Hcalm _). simpl idempKey. rewrite Hrow, Hs. simpl poll_next.
    rewrite pay_run_done by done. by rewrite Hpc.
Qed.

Lemma serve_accepted (clock : nat -> env) (rq : pay_request) (d : db) (h : handler) :
  pay_begin rq = inr h →
  serve clock rq d =
  let res := pay_run 52 (λ i, alone (clock i)) 0 d h in
  (match pc res.1.2 with Done r => Some r | _ => None end, res.1.1, res.2).
Proof.
  intros Hrq. unfold serve. rewrite Hrq.
  by destruct (pay_run 52 _ 0 d h) as [[??]?].
Qed.

Lemma pay_run_alone_step (fuel : nat) (clock : nat -> env) (i : nat) (d : db)
    (h : handler) :
  is_done (pc h) = false →
  pay_run (S fuel) (λ i, alone (clock i)) i d h =
  let s := handler_step (clock i) d h in
  let r := pay_run fuel (λ i, alone (clock i)) (S i) s.1 s.2 in
  (r.1.1, r.1.2, pc h :: r.2).
Proof. intros Hd. by rewrite pay_run_step. Qed.

(** The check of the key and a claim that loses, then the fifty polls of a
    record that stays as it is. *)
Lemma serve_waits (clock : nat -> env) (rq : pay_request) (d : db)
    (h : handler) (r : key_row) :
  pay_begin rq = inr h →
  (∀ n, fault (clock n) = None) →
  idempotency_keys d !! idempKey h = Some r →
  terminal (row_status r) = false →
  claimable r (or_null (Some (h_user_id h))) (now (clock 1%nat)) = false →
  serve clock rq d =
  (Some still_processing, d,
   AtSelect :: AtClaim :: map (λ k, AtPoll (intervalMs * Z.of_nat k)) (seq 0 50)).
Proof.
  intros Hrq Hcalm Hr Hterm Hc.
  destruct (pay_begin_accepted _ _ Hrq) as (Hpc & _).
  set (w := λ i : nat, alone (clock i)).
  set (waiting := at_pc (at_pc h AtClaim) (loop_head 0)).
  assert (Hsights : ∀ i j, pending (sight_at w (idempKey waiting) i d j)).
  { intros i j. unfold w. rewrite (sight_alone _ _ _ (Seen (row_status r) (row_response r))).
    - exists (row_response r). destruct (row_status r); try done; eauto.
    - intros n. unfold look, select_status_response. rewrite (Hcalm n).
      simpl. by rewrite Hr. }
  destruct (wait_loop_timeout w 50 0 2 d waiting) as (Hans & _ & Htr);
    [done|lia|done|by intros|].
  destruct (wait_loop_ends w 50 0 2 d waiting) as (_ & _ & _ & Hdb);
    [done|lia|done|].
  unfold w in Hdb. rewrite drift_alone in Hdb.
  subst w waiting.
  rewrite (serve_accepted _ _ _ _ Hrq).
  rewrite pay_run_alone_step by by rewrite Hpc.
  rewrite (step_select _ _ _ r Hpc (Hcalm _) Hr).
  assert (status_eqb (row_status r) completed = false) as ->
    by by destruct (row_status r).
  cbv beta iota zeta. cbn [fst snd].
  rewrite pay_run_alone_step by done.
  rewrite (step_claim _ _ (at_pc h AtClaim) eq_refl (Hcalm _)).
  cbn [idempKey h_user_id at_pc].
  rewrite (tryClaimKey_unclaimable _ _ _ _ r Hr Hc).
  cbv beta iota zeta. cbn [fst snd].
  by rewrite Hans, Hdb, Htr, Hpc.
Qed.

(** C4. A record in a terminal state, and any number of well-formed POST
    /pay requests presenting its key, served one after the other with the
    storage answering: each is answered from the record, 200 with the stored
    response [P] as body when the record is [completed], 500 [{error:
    "Previous attempt failed", detail: P}] when it is [failed] (a null
    response is sent as null); none issues the payment statement; and the
    database (both tables) is afterwards what it was before the first
    request. *)
Theorem replay_terminal (reqs : list ((nat -> env) * pay_request)) (d : db)
    (key : string) (r : key_row)
    (Hrow : idempotency_keys d !! key = Some r)
    (Hterm : terminal (row_status r) = true)
    (Hreqs : Forall (λ cr : (nat -> env) * pay_request,
                       (∀ n, fault (cr.1 n) = None) ∧
                       ∃ u a, pay_begin cr.2 = inr (Handler key u a AtSelect))
                    reqs) :
  let out := serve_all reqs d in
  out.2 = d ∧
  length out.1 = length reqs ∧
  Forall (λ o : option http_response * list pay_pc,
            o.1 = Some (stored_answer r) ∧ charges o.2 = 0%nat) out.1 ∧
  (row_status r = completed →
     (∀ P, row_response r = Some P →
           Forall (λ o : option http_response * list pay_pc,
                     o.1 = Some (Http 200 P)) out.1) ∧
     (row_response r = None →
           Forall (λ o : option http_response * list pay_pc,
                     o.1 = Some (Http 200 JNull)) out.1)) ∧
  (row_status r = failed →
     (∀ P, row_response r = Some P →
           Forall (λ o : option http_response * list pay_pc,
                     o.1 = Some (Http 500
                                   (JObj [("error", JStr "Previous attempt failed");
                                          ("detail", P)]))) out.1) ∧
     (row_response r = None →
           Forall (λ o : option http_response * list pay_pc,
                     o.1 = Some (Http 500
                                   (JObj [("error", JStr "Previous attempt failed");
                                          ("detail", JNull)]))) out.1)).
Proof.
  cbv zeta.
  assert (Hall : Forall (λ o : option http_response * list pay_pc,
                           o.1 = Some (stored_answer r) ∧ charges o.2 = 0%nat)
                        (serve_all reqs d).1).
  { induction Hreqs as [|[clock rq] rest (Hcalm & u & a & Hrq) _ IH];
      [by constructor|].
    simpl in *. rewrite (serve_terminal _ _ _ _ r Hrq Hcalm Hrow Hterm).
    simpl. constructor; [|done]. simpl. split; [done|].
    by destruct (status_eqb (row_status r) completed). }
  assert (Hsent : ∀ answer, stored_answer r = answer →
            Forall (λ o : option http_response * list pay_pc, o.1 = Some answer)
                   (serve_all reqs d).1).
  { intros answer <-. eapply Forall_impl; [exact Hall|]. by intros o [? _]. }
  split; [|split; [|split; [|split]]].
  - clear Hall Hsent.
    induction Hreqs as [|[clock rq] rest (Hcalm & u & a & Hrq) _ IH]; [done|].
    simpl in *. by rewrite (serve_terminal _ _ _ _ r Hrq Hcalm Hrow Hterm).
  - clear Hall Hsent.
    induction Hreqs as [|[clock rq] rest (Hcalm & u & a & Hrq) _ IH]; [done|].
    simpl in *. rewrite (serve_terminal _ _ _ _ r Hrq Hcalm Hrow Hterm).
    simpl. by rewrite IH.
  - exact Hall.
  - intros Hs. split; [intros P HP|intros HP]; apply Hsent;
      unfold stored_answer; by rewrite Hs, HP.
  - intros Hs. split; [intros P HP|intros HP]; apply Hsent;
      unfold stored_answer; by rewrite Hs, HP.
Qed.

(** ** Completion recorder *)

Lemma step_complete (e : env) (d : db) (h : handler) (payload : json) :
  pc h = AtComplete payload → fault e = None →
  handler_step e d h =
  (record_outcome (idempKey h) completed payload (now e) d,
   at_pc h (Done (Http 200 payload))).
Proof. intros Hpc He. unfold handler_step. by rewrite Hpc, He. Qed.

Lemma step_fail (e : env) (d : db) (h : handler) (message : string) :
  pc h = AtFail message → fault e = None →
  handler_step e d h =
  (record_outcome (idempKey h) failed (JObj [("error", JStr message)]) (now e) d,
   at_pc h (Done (payment_failed message))).
Proof. intros Hpc He. unfold handler_step. by rewrite Hpc, He. Qed.

Lemma step_charge_throws (e : env) (d : db) (h : handler) (message : string) :
  pc h = AtCharge → fault e = Some message →
  handler_step e d h = (d, at_pc h (AtFail message)).
Proof. intros Hpc He. unfold handler_step. by rewrite Hpc, He. Qed.

Lemma step_fail_throws (e : env) (d : db) (h : handler) (m message : string) :
  pc h = AtFail m → fault e = Some message →
  handler_step e d h = (d, at_pc h (Done (server_error message))).
Proof. intros Hpc He. unfold handler_step. by rewrite Hpc, He. Qed.

(** C5. Issue a key that has no record yet, claim it with success, write
    [completed] with payload [P], read the key: the answer is 200 and the
    record it shows has status "completed" and response exactly [P] (the
    other columns are those of the issue, [updated_at] that of the write).
    The write is the statement a handler issues at [AtComplete P]. *)
Theorem issue_claim_complete_read (ttl : Z) (key : string) (date_now : Z) (e : env)
    (user_id : option Z) (operation : option string) (d : db)
    (claimant : option Z) (t_claim t_done : Z) (P : json)
    (Hfresh : idempotency_keys d !! key = None)
    (Hstore : fault e = None)
    (Hclaim : (tryClaimKey key claimant t_claim
                 (issue ttl key date_now e user_id operation d).2).1 = true) :
  let issued := issue ttl key date_now e user_id operation d in
  let d2 := (tryClaimKey key claimant t_claim issued.2).2 in
  let d3 := record_outcome key completed P t_done d2 in
  issued.1 = Http 200 (JObj [("idempotencyKey", JStr key);
                             ("reserved_until", JNum (date_now + ttl * 60 * 1000))]) ∧
  code (get_idempotency key d3) = 200 ∧
  field "status" (body (get_idempotency key d3)) = Some (JStr "completed") ∧
  field "response" (body (get_idempotency key d3)) = Some P ∧
  select_row key d3 =
    Some (KeyRow completed (Some P) (or_null user_id) (or_null_str operation)
                 (Some (date_now + ttl * 60 * 1000)) (now e) t_done) ∧
  (∀ h, idempKey h = key →
        handler_step (calm t_done) d2 (at_pc h (AtComplete P))
        = (d3, at_pc h (Done (Http 200 P)))).
Proof.
  intros issued d2 d3.
  assert (Hissued : issued =
            (Http 200 (JObj [("idempotencyKey", JStr key);
                             ("reserved_until", JNum (date_now + ttl * 60 * 1000))]),
             with_keys d (<[key := KeyRow reserved None (or_null user_id)
                                     (or_null_str operation)
                                     (Some (date_now + ttl * 60 * 1000))
                                     (now e) (now e)]> (idempotency_keys d)))).
  { unfold issued, issue, insert_key. by rewrite Hstore, Hfresh. }
  fold issued in Hclaim. apply tryClaimKey_won in Hclaim as (r & Hr & _ & Hd2).
  fold d2 in Hd2. rewrite Hissued in Hr, Hd2 |- *. simpl in Hr, Hd2.
  rewrite lookup_insert_eq in Hr. injection Hr as <-.
  assert (Hd3 : select_row key d3 =
            Some (KeyRow completed (Some P) (or_null user_id) (or_null_str operation)
                         (Some (date_now + ttl * 60 * 1000)) (now e) t_done)).
  { unfold d3, record_outcome, select_row. rewrite Hd2. simpl.
    rewrite lookup_insert_eq. simpl. by rewrite lookup_insert_eq. }
  split; [done|].
  unfold get_idempotency. rewrite Hd3. simpl.
  repeat split.
  intros h <-.
  exact (step_complete (calm t_done) d2 (at_pc h (AtComplete P)) P eq_refl eq_refl).
Qed.

(** C6. A well-formed request whose claim attempt returns true and whose
    payment transaction throws [message]: the caller is answered 500, no
    payment row was added and no other record changed.  When the storage
    takes the write of the catch block, the record of the key ends [failed]
    with response [{error: message}], the answer is 500 [{error: "Payment
    failed", detail: message}], and a later well-formed request presenting
    the key is answered 500 [{error: "Previous attempt failed", detail:
    {error: message}}], issues no payment statement and changes nothing.
    When the storage rejects that write as well, the answer is the outer
    catch's 500 "Server error" and the record stays [processing]: a later
    request polls the whole window and is answered 202, again without a
    payment statement. *)
Theorem payment_failure_recorded (clock : nat -> env) (rq : pay_request) (d : db)
    (h : handler) (message : string)
    (Hrq : pay_begin rq = inr h)
    (Hselect : fault (clock 0%nat) = None)
    (Hclaim : fault (clock 1%nat) = None)
    (Hwon : (tryClaimKey (idempKey h) (Some (h_user_id h))
               (now (clock 1%nat)) d).1 = true)
    (Hthrow : fault (clock 2%nat) = Some message) :
  let out := serve clock rq d in
  let stored := JObj [("error", JStr message)] in
  (∃ answer, out.1.1 = Some answer ∧ code answer = 500) ∧
  out.2 = [AtSelect; AtClaim; AtCharge; AtFail message] ∧
  payments out.1.2 = payments d ∧
  (∀ k, k ≠ idempKey h →
        idempotency_keys out.1.2 !! k = idempotency_keys d !! k) ∧
  (fault (clock 3%nat) = None →
     out.1.1 = Some (Http 500 (JObj [("error", JStr "Payment failed");
                                     ("detail", JStr message)])) ∧
     (∃ r, idempotency_keys out.1.2 !! idempKey h = Some r ∧
           row_status r = failed ∧ row_response r = Some stored) ∧
     (∀ clock' rq' h',
        pay_begin rq' = inr h' → idempKey h' = idempKey h →
        (∀ n, fault (clock' n) = None) →
        let later := serve clock' rq' out.1.2 in
        later.1.1 = Some (Http 500 (JObj [("error", JStr "Previous attempt failed");
                                          ("detail", stored)])) ∧
        later.1.2 = out.1.2 ∧
        charges later.2 = 0%nat)) ∧
  (∀ m, fault (clock 3%nat) = Some m →
     out.1.1 = Some (Http 500 (JObj [("error", JStr "Server error");
                                     ("detail", JStr m)])) ∧
     (∃ r, idempotency_keys out.1.2 !! idempKey h = Some r ∧
           row_status r = processing) ∧
     (∀ clock' rq' h',
        pay_begin rq' = inr h' → idempKey h' = idempKey h →
        (∀ n, fault (clock' n) = None) →
        let later := serve clock' rq' out.1.2 in
        later.1.1 =
          Some (Http 202
                  (JObj [("status", JStr "processing");
                         ("message",
                          JStr "Request being processed; check status endpoint.")])) ∧
        later.1.2 = out.1.2 ∧
        charges later.2 = 0%nat ∧
        polls later.2 = 50%nat)).
Proof.
  intros out stored.
  destruct (pay_begin_accepted _ _ Hrq) as (Hpc & _).
  pose proof Hwon as (r & Hr & Hc & Hd2)%tryClaimKey_won.
  apply claimable_iff in Hc as (Hs & _).
  set (d2 := with_keys d (<[idempKey h := claimed_row r (now (clock 1%nat))]>
                            (idempotency_keys d))).
  set (d3 := record_outcome (idempKey h) failed stored (now (clock 3%nat)) d2).
  assert (Hrow2 : idempotency_keys d2 !! idempKey h =
            Some (claimed_row r (now (clock 1%nat)))).
  { unfold d2. simpl. apply lookup_insert_eq. }
  assert (Hrow3 : idempotency_keys d3 !! idempKey h =
            Some (recorded_row (claimed_row r (now (clock 1%nat))) failed stored
                               (now (clock 3%nat)))).
  { unfold d3, record_outcome. rewrite Hrow2. simpl. apply lookup_insert_eq. }
  assert (Hout : out =
            match fault (clock 3%nat) with
            | None => (Some (payment_failed message), d3,
                       [AtSelect; AtClaim; AtCharge; AtFail message])
            | Some m => (Some (server_error m), d2,
                         [AtSelect; AtClaim; AtCharge; AtFail message])
            end).
  { unfold out. rewrite (serve_accepted _ _ _ _ Hrq).
    rewrite pay_run_alone_step by by rewrite Hpc.
    rewrite (step_select _ _ _ r Hpc Hselect Hr). rewrite Hs.
    simpl status_eqb. cbv beta iota zeta. cbn [fst snd].
    rewrite pay_run_alone_step by done.
    rewrite (step_claim _ _ (at_pc h AtClaim) eq_refl Hclaim).
    cbn [idempKey h_user_id at_pc]. rewrite Hwon, Hd2.
    cbv beta iota zeta. cbn [fst snd]. fold d2.
    rewrite pay_run_alone_step by done.
    rewrite (step_charge_throws _ _ _ message) by done.
    cbv beta iota zeta. cbn [fst snd].
    rewrite pay_run_alone_step by done.
    destruct (fault (clock 3%nat)) as [m|] eqn:Hw.
    - rewrite (step_fail_throws _ _ _ message m) by done.
      cbv beta iota zeta. cbn [fst snd].
      rewrite pay_run_done by done. by rewrite Hpc.
    - rewrite (step_fail _ _ _ message) by done.
      cbv beta iota zeta. cbn [fst snd].
      rewrite pay_run_done by done. by rewrite Hpc. }
  assert (Hpay3 : payments d3 = payments d).
  { unfold d3, record_outcome. by rewrite Hrow2. }
  assert (Hothers2 : ∀ k, k ≠ idempKey h →
            idempotency_keys d2 !! k = idempotency_keys d !! k).
  { intros k Hk. unfold d2. simpl. by rewrite lookup_insert_ne. }
  assert (Hothers3 : ∀ k, k ≠ idempKey h →
            idempotency_keys d3 !! k = idempotency_keys d !! k).
  { intros k Hk. unfold d3, record_outcome. rewrite Hrow2. simpl.
    rewrite lookup_insert_ne by done. by apply Hothers2. }
  rewrite Hout.
  destruct (fault (clock 3%nat)) as [m|] eqn:Hw; cbn [fst snd].
  - split; [by eexists|]. split; [done|]. split; [done|]. split; [done|].
    split; [done|]. intros m' [= <-]. split; [done|].
    split; [by eexists|].
    intros clock' rq' h' Hrq' Hkey Hcalm. rewrite <- Hkey in Hrow2.
    rewrite (serve_waits clock' rq' d2 h' _ Hrq' Hcalm Hrow2) by done.
    cbn [fst snd]. split; [done|]. split; [done|].
    split; vm_compute; reflexivity.
  - split; [by eexists|]. split; [done|]. split; [done|]. split; [done|].
    split; [|done]. intros _. split; [done|].
    split; [eexists; split; [exact Hrow3|done]|].
    intros clock' rq' h' Hrq' Hkey Hcalm. rewrite <- Hkey in Hrow3.
    by rewrite (serve_terminal _ _ _ _ _ Hrq' Hcalm Hrow3 eq_refl).
Qed.

(** C6 as stated fails: the record of "K" is claimed by user 1, the payment
    throws, and the storage rejects the write of [failed] too.  The caller
    is answered 500, but the record is [processing] with no response; no
    claim can win it any more, and a later request is answered 202 after
    fifty polls, not the failure. *)
Lemma payment_failure_unrecorded :
  let out := serve both_rejected pay_K reserved_db in
  (tryClaimKey "K" (Some 1) (now (both_rejected 1%nat)) reserved_db).1 = true ∧
  fault (both_rejected 2%nat) = Some "payment refused" ∧
  out.2 = [AtSelect; AtClaim; AtCharge; AtFail "payment refused"] ∧
  out.1.1 = Some (Http 500 (JObj [("error", JStr "Server error");
                                  ("detail", JStr "connection lost")])) ∧
  select_status_response "K" out.1.2 = Some (processing, None) ∧
  (∀ user_id t, tryClaimKey "K" user_id t out.1.2 = (false, out.1.2)) ∧
  (∀ clock', (∀ n, fault (clock' n) = None) →
     let later := serve clock' pay_K out.1.2 in
     later.1.1 =
       Some (Http 202
               (JObj [("status", JStr "processing");
                      ("message",
                       JStr "Request being processed; check status endpoint.")])) ∧
     later.1.2 = out.1.2 ∧
     polls later.2 = 50%nat).
Proof.
  assert (Hout : serve both_rejected pay_K reserved_db =
            (Some (server_error "connection lost"),
             Db {[ "K" := KeyRow processing None (Some 1) None (Some 1000) 0 40 ]} [] 0,
             [AtSelect; AtClaim; AtCharge; AtFail "payment refused"])).
  { vm_compute. reflexivity. }
  cbv zeta. rewrite Hout. cbn [fst snd].
  split; [vm_compute; reflexivity|]. split; [reflexivity|].
  split; [reflexivity|]. split; [reflexivity|].
  split; [vm_compute; reflexivity|]. split.
  - intros user_id t.
    apply (tryClaimKey_unclaimable _ _ _ _
             (KeyRow processing None (Some 1) None (Some 1000) 0 40));
      [vm_compute; reflexivity|done].
  - intros clock' Hcalm.
    rewrite (serve_waits clock' pay_K _ (Handler "K" 1 100 AtSelect)
               (KeyRow processing None (Some 1) None (Some 1000) 0 40));
      [|reflexivity|done|vm_compute; reflexivity|done|done].
    cbn [fst snd]. split; [done|]. split; [done|]. vm_compute. reflexivity.
Qed.

(** ** The key state machine under interleaving *)

(** The three things a statement of a handler can do to the table of keys. *)
Lemma handler_step_effect (e : env) (d : db) (h : handler) :
  let d' := (handler_step e d h).1 in
  let h' := (handler_step e d h).2 in
  idempKey h' = idempKey h ∧
  ((idempotency_keys d' = idempotency_keys d ∧
    (holding (pc h') = true → holding (pc h) = true)) ∨
   (holding (pc h) = false ∧
    ∃ r, idempotency_keys d !! idempKey h = Some r ∧ row_status r = reserved ∧
         idempotency_keys d' =
           <[idempKey h := claimed_row r (now e)]> (idempotency_keys d)) ∨
   (holding (pc h) = true ∧ holding (pc h') = false ∧
    ∃ s resp, terminal s = true ∧
              d' = record_outcome (idempKey h) s resp (now e) d)).
Proof.
  unfold handler_step.
  destruct (pc h) as [| | |payload|message|waited|answer] eqn:Hpc;
    destruct (fault e) as [m|] eqn:He; simpl;
    try (split; [done|]; left; split; done).
  - destruct (select_status_response (idempKey h) d) as [[s resp]|];
      [destruct (status_eqb s completed)|]; simpl; split; try done;
      left; split; done.
  - destruct (tryClaimKey (idempKey h) (Some (h_user_id h)) (now e) d)
      as [won d'] eqn:Hclaim.
    simpl. split; [done|]. destruct won.
    + right. left. split; [done|].
      assert (Hw : (tryClaimKey (idempKey h) (Some (h_user_id h)) (now e) d).1
                   = true) by by rewrite Hclaim.
      apply tryClaimKey_won in Hw as (r & Hr & Hc & Hd').
      rewrite Hclaim in Hd'. simpl in Hd'. subst d'.
      exists r. apply claimable_iff in Hc as (Hs & _). done.
    + left. assert (Hl : (tryClaimKey (idempKey h) (Some (h_user_id h)) (now e) d).1
                         = false) by by rewrite Hclaim.
      apply tryClaimKey_lost in Hl. rewrite Hclaim in Hl. simpl in Hl. subst d'.
      split; [done|]. unfold loop_head. by destruct (0 <? maxWaitMs).
  - split; [done|]. right. right. split; [done|]. split; [done|].
    exists completed, payload. done.
  - split; [done|]. right. right. split; [done|]. split; [done|].
    eexists failed, _. done.
  - destruct (select_status_response (idempKey h) d) as [[s resp]|]; simpl.
    + destruct (status_eqb s completed); [|destruct (status_eqb s failed)];
        simpl; split; try done; left; split; try done.
      unfold loop_head. by destruct (waited + intervalMs <? maxWaitMs).
    + split; [done|]. left. done.
  - split; [done|]. left. split; [done|]. by rewrite Hpc.
  - split; [done|]. left. split; [done|]. by rewrite Hpc.
Qed.

Lemma issue_keys (ttl : Z) (key : string) (date_now : Z) (e : env)
    (user_id : option Z) (operation : option string) (d : db) :
  let d' := (issue ttl key date_now e user_id operation d).2 in
  idempotency_keys d' = idempotency_keys d ∨
  (idempotency_keys d !! key = None ∧
   ∃ r, row_status r = reserved ∧ row_response r = None ∧
        idempotency_keys d' = <[key := r]> (idempotency_keys d)).
Proof.
  unfold issue, insert_key. destruct (fault e); simpl; [by left|].
  destruct (idempotency_keys d !! key) eqn:Hk; simpl; [by left|].
  right. split; [done|]. eexists. split; [|split]; [| |reflexivity]; done.
Qed.

Lemma cleanup_keys (e : env) (d : db) (k : string) :
  let d' := (cleanup e d).2 in
  idempotency_keys d' !! k = idempotency_keys d !! k ∨
  (idempotency_keys d' !! k = None ∧
   ∃ r, idempotency_keys d !! k = Some r ∧ row_status r = reserved).
Proof.
  unfold cleanup. destruct (fault e); [by left|].
  pose proof (delete_expired_lookup (now e) d k) as Hl.
  destruct (delete_expired (now e) d) as [n d'] eqn:Hd. simpl in *.
  rewrite Hl. clear Hl.
  destruct (idempotency_keys d !! k) as [r|]; [|by left].
  destruct (expired (now e) r) eqn:He; [|by left].
  right. split; [done|]. exists r. split; [done|].
  by apply expired_iff in He as [? _].
Qed.

Lemma terminal_not_reserved (r : key_row) :
  terminal (row_status r) = true → row_status r ≠ reserved.
Proof. by destruct (row_status r). Qed.

Lemma record_outcome_keys (key : string) (s : status) (resp : json) (t : Z)
    (d : db) (r : key_row) :
  idempotency_keys d !! key = Some r →
  idempotency_keys (record_outcome key s resp t d) =
  <[key := recorded_row r s resp t]> (idempotency_keys d).
Proof. intros Hk. unfold record_outcome. by rewrite Hk. Qed.

Section service.
Variable ttl : Z.

(** A terminal record is out of reach of every step of the service. *)
Lemma sys_step_terminal (e : env) (a : action) (s : system) (k : string)
    (r : key_row) :
  sound s →
  idempotency_keys (sys_db s) !! k = Some r →
  terminal (row_status r) = true →
  idempotency_keys (sys_db (sys_step ttl e a s)) !! k = Some r.
Proof.
  intros Hsound Hk Hterm. destruct a as [key dn u op|rq|i|]; simpl.
  - destruct (issue_keys ttl key dn e u op (sys_db s))
      as [->|(Hfresh & r' & _ & _ & ->)]; [done|].
    rewrite lookup_insert_ne; [done|]. intros ->. congruence.
  - by destruct (pay_begin rq).
  - destruct (sys_handlers s !! i) as [h|] eqn:Hh; [|done].
    pose proof (handler_step_effect e (sys_db s) h) as (_ & Heff).
    destruct (handler_step e (sys_db s) h) as [d' h']. simpl in *.
    destruct Heff as [[-> _]|[(_ & r0 & Hr0 & Hs0 & ->)|(Hhold & _ & st & resp & _ & ->)]].
    + done.
    + rewrite lookup_insert_ne; [done|]. intros <-.
      apply terminal_not_reserved in Hterm. congruence.
    + destruct (sound_held s Hsound i h Hh Hhold) as (r0 & Hr0 & Hs0).
      rewrite (record_outcome_keys _ _ _ _ _ r0 Hr0).
      rewrite lookup_insert_ne; [done|]. intros <-.
      assert (r0 = r) as -> by congruence. by rewrite Hs0 in Hterm.
  - destruct (cleanup_keys e (sys_db s) k) as [->|(_ & r0 & Hr0 & Hs0)]; [done|].
    assert (r0 = r) as -> by congruence.
    by apply terminal_not_reserved in Hterm.
Qed.

Lemma sound_quiet (d : db) : unanswered d → sound (System d []).
Proof.
  intros Hd. split; simpl; [done| |]; intros *; by rewrite lookup_nil.
Qed.

Lemma sys_step_sound (e : env) (a : action) (s : system) :
  sound s → sound (sys_step ttl e a s).
Proof.
  intros [Hnull Hheld Hsole]. destruct a as [key dn u op|rq|i|]; simpl.
  - destruct (issue_keys ttl key dn e u op (sys_db s))
      as [Heq|(Hfresh & r' & Hs' & Hresp' & Heq)]; split; simpl.
    + intros k r. rewrite Heq. apply Hnull.
    + intros j h Hj Hh. rewrite Heq. eauto.
    + eauto.
    + intros k r. rewrite Heq. destruct (decide (key = k)) as [->|Hne].
      * rewrite lookup_insert_eq. by intros [= <-].
      * rewrite lookup_insert_ne by done. apply Hnull.
    + intros j h Hj Hh. destruct (Hheld j h Hj Hh) as (r & Hr & Hs).
      exists r. split; [|done]. rewrite Heq, lookup_insert_ne; [done|].
      intros ->. congruence.
    + eauto.
  - destruct (pay_begin rq) as [resp|h0] eqn:Hrq; [by split|].
    apply pay_begin_accepted in Hrq as (Hpc0 & _).
    split; simpl.
    + done.
    + intros j h [[Hlt Hj]|[-> <-]]%lookup_snoc_Some Hh; [eauto|].
      by rewrite Hpc0 in Hh.
    + intros j j' h h' [[_ Hj]|[-> <-]]%lookup_snoc_Some
        [[_ Hj']|[-> <-]]%lookup_snoc_Some Hh Hh' Hkey;
        [eauto|by rewrite Hpc0 in Hh'|by rewrite Hpc0 in Hh|done].
  - destruct (sys_handlers s !! i) as [h|] eqn:Hi; [|by split].
    pose proof (handler_step_effect e (sys_db s) h) as (Hkey & Heff).
    destruct (handler_step e (sys_db s) h) as [d' h']; simpl in *.
    destruct Heff as [[Heq Hhold]|[(Hnh & r0 & Hr0 & Hs0 & Heq)
                                  |(Hhold & Hnh' & st & resp & Hterm & ->)]].
    + split; simpl.
      * intros k r. rewrite Heq. apply Hnull.
      * intros j hj [(-> & <- & _)|(Hne & Hj)]%list_lookup_insert_Some Hh.
        -- rewrite Heq, Hkey. eauto.
        -- rewrite Heq. eauto.
      * intros j j' hj hj' [(-> & <- & _)|(Hne & Hj)]%list_lookup_insert_Some
          [(-> & <- & _)|(Hne' & Hj')]%list_lookup_insert_Some Hh Hh' Hk;
          try done.
        -- rewrite Hkey in Hk. eapply Hsole; eauto.
        -- rewrite Hkey in Hk. eapply Hsole; eauto.
        -- eauto.
    + split; simpl.
      * intros k r. rewrite Heq. destruct (decide (idempKey h = k)) as [<-|Hne].
        -- rewrite lookup_insert_eq. intros [= <-] _. simpl.
           apply (Hnull _ _ Hr0). by rewrite Hs0.
        -- rewrite lookup_insert_ne by done. apply Hnull.
      * intros j hj [(-> & <- & _)|(Hne & Hj)]%list_lookup_insert_Some Hh.
        -- rewrite Heq, Hkey, lookup_insert_eq. by eexists.
        -- destruct (Hheld j hj Hj Hh) as (r & Hr & Hs).
           exists r. split; [|done]. rewrite Heq, lookup_insert_ne; [done|].
           intros Hsame. rewrite Hsame in Hr0. congruence.
      * intros j j' hj hj' [(-> & <- & _)|(Hne & Hj)]%list_lookup_insert_Some
          [(-> & <- & _)|(Hne' & Hj')]%list_lookup_insert_Some Hh Hh' Hk;
          try done.
        -- destruct (Hheld j' hj' Hj' Hh') as (r & Hr & Hs).
           rewrite <- Hk, Hkey in Hr. congruence.
        -- destruct (Hheld j hj Hj Hh) as (r & Hr & Hs).
           rewrite Hk, Hkey in Hr. congruence.
        -- eauto.
    + destruct (Hheld i h Hi Hhold) as (r0 & Hr0 & Hs0).
      split; simpl.
      * intros k r. rewrite (record_outcome_keys _ _ _ _ _ r0 Hr0).
        destruct (decide (idempKey h = k)) as [<-|Hne].
        -- rewrite lookup_insert_eq. intros [= <-]. simpl. congruence.
        -- rewrite lookup_insert_ne by done. apply Hnull.
      * intros j hj [(-> & <- & _)|(Hne & Hj)]%list_lookup_insert_Some Hh;
          [congruence|].
        destruct (Hheld j hj Hj Hh) as (r & Hr & Hs).
        exists r. split; [|done].
        rewrite (record_outcome_keys _ _ _ _ _ r0 Hr0).
        rewrite lookup_insert_ne; [done|].
        intros Hsame. apply Hne. eapply Hsole; eauto.
      * intros j j' hj hj' [(-> & <- & _)|(Hne & Hj)]%list_lookup_insert_Some
          [(-> & <- & _)|(Hne' & Hj')]%list_lookup_insert_Some Hh Hh' Hk;
          try done; try congruence.
        eauto.
  - split; simpl.
    + intros k r Hk.
      destruct (cleanup_keys e (sys_db s) k) as [Heq|[Hnone _]];
        [rewrite Heq in Hk; eauto|congruence].
    + intros j h Hj Hh. destruct (Hheld j h Hj Hh) as (r & Hr & Hs).
      exists r. split; [|done].
      destruct (cleanup_keys e (sys_db s) (idempKey h))
        as [->|(_ & r1 & Hr1 & Hs1)]; [done|]. congruence.
    + eauto.
Qed.

Lemma sys_run_sound (sched : list (env * action)) (s : system) :
  sound s → sound (sys_run ttl sched s).
Proof.
  revert s. induction sched as [|[e a] rest IH]; intros s Hs; [done|].
  simpl. apply IH. by apply sys_step_sound.
Qed.

Lemma sys_run_terminal (sched : list (env * action)) (s : system) (k : string)
    (r : key_row) :
  sound s →
  idempotency_keys (sys_db s) !! k = Some r →
  terminal (row_status r) = true →
  idempotency_keys (sys_db (sys_run ttl sched s)) !! k = Some r.
Proof.
  revert s. induction sched as [|[e a] rest IH]; intros s Hs Hk Ht; [done|].
  simpl. apply IH; [by apply sys_step_sound| |done].
  by apply sys_step_terminal.
Qed.
End service.

(** The outcome write alone would overwrite a terminal record: it is
    unconditional.  What protects terminal records is that only the winner
    of the claim issues it, once. *)
Example record_outcome_unconditional :
  let r := KeyRow completed (Some (JBool true)) None None None 0 5 in
  let d := Db {[ "K" := r ]} [] 0 in
  select_status_response "K" (record_outcome "K" failed (JStr "late") 9 d)
  = Some (failed, Some (JStr "late")).
Proof. vm_compute. reflexivity. Qed.

(** C3. From a database whose non-terminal records carry no response and
    with no request in flight, run any schedule of issues, arriving
    requests, handler statements (claims, payments, outcome writes, polls,
    each possibly rejected by the storage) and sweeps.  In the state reached,
    every record that is [reserved] or [processing] has a null response;
    and a record that is [completed] or [failed] there is found unchanged
    (status, response and every other column) after any further schedule. *)
Theorem terminal_is_final (ttl : Z) (d0 : db) (pre post : list (env * action))
    (Hinit : unanswered d0) :
  let s := sys_run ttl pre (System d0 []) in
  let s' := sys_run ttl post s in
  (∀ k r, idempotency_keys (sys_db s) !! k = Some r →
          row_status r = reserved ∨ row_status r = processing →
          row_response r = None) ∧
  (∀ k r, idempotency_keys (sys_db s) !! k = Some r →
          row_status r = completed ∨ row_status r = failed →
          idempotency_keys (sys_db s') !! k = Some r).
Proof.
  intros s s'.
  assert (Hs : sound s) by (apply sys_run_sound, sound_quiet, Hinit).
  split.
  - intros k r Hk Hst. apply (sound_null s Hs k r Hk). by destruct Hst as [->| ->].
  - intros k r Hk Hst. apply sys_run_terminal; [done|done|].
    by destruct Hst as [->| ->].
Qed.

(** ** The race for a key, among the other operations of the service *)

Section race.
Variable ttl : Z.

(** A record that left [reserved] never returns to it, and is never
    removed, whatever the service does. *)
Lemma sys_step_taken (e : env) (a : action) (s : system) (k : string) (r : key_row) :
  idempotency_keys (sys_db s) !! k = Some r → row_status r ≠ reserved →
  ∃ r', idempotency_keys (sys_db (sys_step ttl e a s)) !! k = Some r' ∧
        row_status r' ≠ reserved.
Proof.
  intros Hk Hs. destruct a as [key dn u op|rq|i|]; simpl.
  - destruct (issue_keys ttl key dn e u op (sys_db s))
      as [->|(Hfresh & r' & _ & _ & ->)]; [eauto|].
    exists r. split; [|done]. rewrite lookup_insert_ne; [done|].
    intros ->. congruence.
  - destruct (pay_begin rq); eauto.
  - destruct (sys_handlers s !! i) as [h|] eqn:Hh; [|eauto].
    pose proof (handler_step_effect e (sys_db s) h) as (_ & Heff).
    destruct (handler_step e (sys_db s) h) as [d' h']. simpl in *.
    destruct Heff as [[-> _]|[(_ & r0 & Hr0 & Hs0 & ->)|(_ & _ & st & resp & Hterm & ->)]].
    + eauto.
    + exists r. split; [|done]. rewrite lookup_insert_ne; [done|].
      intros <-. congruence.
    + unfold record_outcome.
      destruct (idempotency_keys (sys_db s) !! idempKey h) as [r0|] eqn:Hr0;
        [|eauto]. simpl.
      destruct (decide (idempKey h = k)) as [<-|Hne].
      * rewrite lookup_insert_eq. eexists. split; [done|]. simpl.
        by destruct st.
      * rewrite lookup_insert_ne by done. eauto.
  - destruct (cleanup_keys e (sys_db s) k) as [->|(_ & r0 & Hr0 & Hs0)]; [eauto|].
    congruence.
Qed.

Lemma sys_run_taken (sched : list (env * action)) (s : system) (k : string)
    (r : key_row) :
  idempotency_keys (sys_db s) !! k = Some r → row_status r ≠ reserved →
  ∃ r', idempotency_keys (sys_db (sys_run ttl sched s)) !! k = Some r' ∧
        row_status r' ≠ reserved.
Proof.
  revert s r. induction sched as [|[e a] rest IH]; intros s r Hk Hs; [eauto|].
  simpl. destruct (sys_step_taken e a s k r Hk Hs) as (r' & Hk' & Hs'). eauto.
Qed.
End race.

(** C1, as the code has it.  In any sequence of claim attempts on a key, at
    most one returns true, the one that does runs on a [reserved] record,
    and no two different attempts both return true.  When the record is
    [reserved] at the start and some attempt is entitled to it, exactly one
    attempt returns true; when none is, all return false and the database is
    unchanged.  And once an attempt has returned true, every later attempt
    on the key returns false, whatever issues, requests, handler statements
    and sweeps the service ran in between: the record is never [reserved]
    again. *)
Theorem claim_race_one_winner (key : string) (attempts : list (option Z * Z)) (d : db) :
  let results := (claim_race key attempts d).1 in
  (wins results ≤ 1)%nat ∧
  length results = length attempts ∧
  (∀ i, results !! i = Some true →
        ∃ r, idempotency_keys (claim_race key (take i attempts) d).2 !! key = Some r ∧
             row_status r = reserved) ∧
  (∀ i j, results !! i = Some true → results !! j = Some true → i = j) ∧
  (∀ r, idempotency_keys d !! key = Some r → row_status r = reserved →
        Exists (entitled r) attempts → wins results = 1%nat) ∧
  (∀ r, idempotency_keys d !! key = Some r → row_status r = reserved →
        Forall (λ a, ¬ entitled r a) attempts →
        wins results = 0%nat ∧ (claim_race key attempts d).2 = d) ∧
  (∀ user_id t, (tryClaimKey key user_id t d).1 = true →
     ∀ ttl handlers sched user_id' t',
       tryClaimKey key user_id' t'
         (sys_db (sys_run ttl sched
                    (System (tryClaimKey key user_id t d).2 handlers)))
       = (false,
          sys_db (sys_run ttl sched
                    (System (tryClaimKey key user_id t d).2 handlers)))).
Proof.
  intros results. subst results.
  split; [|split; [|split; [|split; [|split; [|split]]]]].
  7:{ intros u t Hwon ttl handlers sched u' t'.
      apply tryClaimKey_not_reserved. intros r' Hr'.
      pose proof (tryClaimKey_won _ _ _ _ Hwon) as (r & Hr & _ & Heq).
      destruct (sys_run_taken ttl sched
                  (System (tryClaimKey key u t d).2 handlers) key
                  (claimed_row r t)) as (r2 & Hr2 & Hs2).
      - simpl. rewrite Heq. simpl. apply lookup_insert_eq.
      - done.
      - congruence. }
  - apply claim_race_at_most_one.
  - revert d. induction attempts as [|[u t] rest IH]; intros d; [done|].
    rewrite claim_race_cons. simpl. by rewrite IH.
  - apply claim_race_while_reserved.
  - apply claim_race_unique.
  - intros r Hk Hs Hex. apply (claim_race_winner _ _ _ r Hk).
    eapply Exists_impl; [exact Hex|]. intros a [Ho Hw].
    apply claimable_iff. done.
  - intros r Hk Hs Hnone.
    rewrite (claim_race_no_taker _ _ _ r);
      [simpl; by rewrite wins_replicate_false|done|].
    eapply Forall_impl; [exact Hnone|]. intros a Hn; simpl in Hn.
    destruct (claimable r (or_null a.1) a.2) eqn:Hc; [|done].
    apply claimable_iff in Hc as (_ & ? & ?). by destruct Hn.
Qed.

(** C1 as stated fails: a [reserved] record owned by user 1 with its window
    open until 1000; a caller with another owner, then the owner after the
    window.  Both attempts return false, the record is still [reserved]. *)
Lemma claim_race_no_winner :
  let r := KeyRow reserved None (Some 1) None (Some 1000) 0 0 in
  let d := Db {[ "K" := r ]} [] 0 in
  idempotency_keys d !! "K" = Some r ∧
  (claim_race "K" [(Some 2, 10); (Some 1, 2000)] d).1 = [false; false] ∧
  idempotency_keys (claim_race "K" [(Some 2, 10); (Some 1, 2000)] d).2 !! "K"
    = Some r.
Proof. vm_compute. done. Qed.

(** ** Concrete runs *)

Example run_to_completed_state :
  let s := sys_run KEY_TTL_MINUTES_default run_to_completed (System empty_db []) in
  select_status_response "K" (sys_db s)
  = Some (completed,
          Some (JObj [("success", JBool true); ("paymentId", JNum 1);
                      ("created_at", JNum 50)])) ∧
  payments (sys_db s) = [Payment 1 1 100 50] ∧
  pc <$> sys_handlers s
  = [Done (Http 200 (JObj [("success", JBool true); ("paymentId", JNum 1);
                           ("created_at", JNum 50)]))].
Proof. vm_compute. done. Qed.

Lemma terminal_is_final_run :
  let s := sys_run KEY_TTL_MINUTES_default run_to_completed (System empty_db []) in
  let s' := sys_run KEY_TTL_MINUTES_default run_after s in
  (∀ k r, idempotency_keys (sys_db s) !! k = Some r →
          row_status r = reserved ∨ row_status r = processing →
          row_response r = None) ∧
  (∀ k r, idempotency_keys (sys_db s) !! k = Some r →
          row_status r = completed ∨ row_status r = failed →
          idempotency_keys (sys_db s') !! k = Some r).
Proof.
  apply (terminal_is_final KEY_TTL_MINUTES_default empty_db run_to_completed run_after).
  intros k r Hk. simpl in Hk. by rewrite lookup_empty in Hk.
Defined.

Lemma replay_terminal_twice :
  let out := serve_all two_retries completed_db in
  let refused := serve_all two_retries failed_db in
  (out.2 = completed_db ∧
   length out.1 = 2%nat ∧
   Forall (λ o : option http_response * list pay_pc, charges o.2 = 0%nat) out.1 ∧
   Forall (λ o : option http_response * list pay_pc,
             o.1 = Some (Http 200 (JObj [("success", JBool true)]))) out.1) ∧
  (refused.2 = failed_db ∧
   length refused.1 = 2%nat ∧
   Forall (λ o : option http_response * list pay_pc, charges o.2 = 0%nat)
          refused.1 ∧
   Forall (λ o : option http_response * list pay_pc,
             o.1 = Some (Http 500
                           (JObj [("error", JStr "Previous attempt failed");
                                  ("detail",
                                   JObj [("error", JStr "card declined")])])))
          refused.1).
Proof.
  split.
  - destruct (replay_terminal two_retries completed_db "K"
                (KeyRow completed (Some (JObj [("success", JBool true)]))
                        (Some 1) None (Some 1000) 0 60))
      as (Hdb & Hlen & Hall & Hcompleted & _).
    + vm_compute. reflexivity.
    + reflexivity.
    + repeat constructor; simpl; eauto.
    + split; [exact Hdb|]. split; [exact Hlen|]. split.
      * eapply Forall_impl; [exact Hall|]. by intros o [_ ?].
      * destruct (Hcompleted eq_refl) as [Hsome _]. exact (Hsome _ eq_refl).
  - destruct (replay_terminal two_retries failed_db "K"
                (KeyRow failed (Some (JObj [("error", JStr "card declined")]))
                        (Some 1) None (Some 1000) 0 60))
      as (Hdb & Hlen & Hall & _ & Hfailed).
    + vm_compute. reflexivity.
    + reflexivity.
    + repeat constructor; simpl; eauto.
    + split; [exact Hdb|]. split; [exact Hlen|]. split.
      * eapply Forall_impl; [exact Hall|]. by intros o [_ ?].
      * destruct (Hfailed eq_refl) as [Hsome _]. exact (Hsome _ eq_refl).
Defined.

Lemma issue_claim_complete_read_once :
  let P := JObj [("success", JBool true); ("paymentId", JNum 1)] in
  let issued := issue KEY_TTL_MINUTES_default "K" 10 (calm 10) (Some 1)
                      (Some "pay") empty_db in
  let d2 := (tryClaimKey "K" (Some 1) 40 issued.2).2 in
  let d3 := record_outcome "K" completed P 60 d2 in
  issued.1 = Http 200 (JObj [("idempotencyKey", JStr "K");
                             ("reserved_until",
                              JNum (10 + KEY_TTL_MINUTES_default * 60 * 1000))]) ∧
  code (get_idempotency "K" d3) = 200 ∧
  field "status" (body (get_idempotency "K" d3)) = Some (JStr "completed") ∧
  field "response" (body (get_idempotency "K" d3)) = Some P ∧
  select_row "K" d3 =
    Some (KeyRow completed (Some P) (or_null (Some 1)) (or_null_str (Some "pay"))
                 (Some (10 + KEY_TTL_MINUTES_default * 60 * 1000))
                 (now (calm 10)) 60) ∧
  (∀ h, idempKey h = "K" →
        handler_step (calm 60) d2 (at_pc h (AtComplete P))
        = (d3, at_pc h (Done (Http 200 P)))).
Proof.
  apply (issue_claim_complete_read KEY_TTL_MINUTES_default "K" 10 (calm 10) (Some 1) (Some "pay")
           empty_db (Some 1) 40 60
           (JObj [("success", JBool true); ("paymentId", JNum 1)])).
  - vm_compute. reflexivity.
  - reflexivity.
  - vm_compute. reflexivity.
Defined.

Lemma payment_failure_recorded_once :
  let message := "insert or update on table payments violates constraint" in
  let out := serve payment_throws pay_K reserved_db in
  let stored := JObj [("error", JStr message)] in
  out.1.1 = Some (Http 500 (JObj [("error", JStr "Payment failed");
                                  ("detail", JStr message)])) ∧
  out.2 = [AtSelect; AtClaim; AtCharge; AtFail message] ∧
  payments out.1.2 = [] ∧
  select_status_response "K" out.1.2 = Some (failed, Some stored) ∧
  (∀ clock', (∀ n, fault (clock' n) = None) →
     let later := serve clock' pay_K out.1.2 in
     later.1.1 = Some (Http 500 (JObj [("error", JStr "Previous attempt failed");
                                       ("detail", stored)])) ∧
     later.1.2 = out.1.2 ∧
     charges later.2 = 0%nat).
Proof.
  destruct (payment_failure_recorded payment_throws pay_K reserved_db
              (Handler "K" 1 100 AtSelect)
              "insert or update on table payments violates constraint")
    as (_ & Htrace & Hpay & _ & Hrecorded & _).
  - reflexivity.
  - reflexivity.
  - reflexivity.
  - vm_compute. reflexivity.
  - reflexivity.
  - destruct (Hrecorded eq_refl) as (Hanswer & (r & Hr & Hs & Hresp) & Hlater).
    split; [exact Hanswer|]. split; [exact Htrace|]. split; [exact Hpay|].
    split.
    + unfold select_status_response. cbn [idempKey] in Hr.
      rewrite Hr. by rewrite Hs, Hresp.
    + intros clock' Hcalm.
      exact (Hlater clock' pay_K (Handler "K" 1 100 AtSelect) eq_refl eq_refl Hcalm).
Defined.

Lemma expired_reserved_times_out_once :
  let rq := PayRequest (Some "K") (Some 1) (Some 100) in
  let h := Handler "K" 1 100 AtSelect in
  let clock := λ n : nat, calm (2000 + Z.of_nat n * 100) in
  let out := serve clock rq reserved_db in
  out.1.1 = Some still_processing ∧
  code still_processing = 202 ∧
  field "status" (body still_processing) = Some (JStr "processing") ∧
  out.1.2 = reserved_db ∧
  polls out.2 = 50%nat ∧
  charges out.2 = 0%nat ∧
  out.2 = AtSelect :: AtClaim ::
            map (λ k, AtPoll (intervalMs * Z.of_nat k)) (seq 0 50) ∧
  (tryClaimKey (idempKey h) (Some (h_user_id h)) (now (clock 1%nat)) reserved_db).1
  = false.
Proof.
  apply (expired_reserved_times_out
           (λ n : nat, calm (2000 + Z.of_nat n * 100))
           (PayRequest (Some "K") (Some 1) (Some 100)) reserved_db
           (Handler "K" 1 100 AtSelect)
           (KeyRow reserved None (Some 1) None (Some 1000) 0 0) 1000).
  - reflexivity.
  - vm_compute. reflexivity.
  - reflexivity.
  - reflexivity.
  - intros n. reflexivity.
  - simpl. lia.
Defined.

(** ** Every request is answered *)

Lemma pay_run_within (n m : nat) (w : nat -> turn) (i : nat) (d : db) (h : handler) :
  (n ≤ m)%nat →
  is_done (pc (pay_run n w i d h).1.2) = true →
  is_done (pc (pay_run m w i d h).1.2) = true.
Proof.
  intros Hnm Hd. replace m with (n + (m - n))%nat by lia.
  by rewrite pay_run_more.
Qed.

Lemma pay_run_next (n : nat) (w : nat -> turn) (i : nat) (d : db) (h : handler) :
  is_done (pc h) = false →
  is_done (pc (pay_run n w (S i)
                 (handler_step (t_env (w i)) (t_others (w i) d) h).1
                 (handler_step (t_env (w i)) (t_others (w i) d) h).2).1.2) = true →
  is_done (pc (pay_run (S n) w i d h).1.2) = true.
Proof. intros Hh Hd. by rewrite pay_run_step. Qed.

(** Whatever the others do and whatever the storage answers, a handler has
    sent its response after at most 52 statements: the check of the key, the
    claim, and then either the payment and its record (at most three) or the
    polls (at most fifty). *)
Lemma pay_run_total (w : nat -> turn) (i : nat) (d : db) (h : handler) :
  pc h = AtSelect →
  is_done (pc (pay_run 52 w i d h).1.2) = true.
Proof.
  intros Hselect.
  assert (Hfail : ∀ i d h m, pc h = AtFail m →
            is_done (pc (pay_run 1 w i d h).1.2) = true).
  { intros i' d' h' m Hpc. apply pay_run_next; [by rewrite Hpc|].
    unfold handler_step; rewrite Hpc.
    destruct (fault (t_env (w i'))); cbn [fst snd]; by rewrite pay_run_done. }
  assert (Hcomplete : ∀ i d h p, pc h = AtComplete p →
            is_done (pc (pay_run 2 w i d h).1.2) = true).
  { intros i' d' h' p Hpc. apply pay_run_next; [by rewrite Hpc|].
    unfold handler_step; rewrite Hpc.
    destruct (fault (t_env (w i'))) as [m|]; cbn [fst snd].
    - by apply (Hfail _ _ _ m).
    - by rewrite pay_run_done. }
  assert (Hcharge : ∀ i d h, pc h = AtCharge →
            is_done (pc (pay_run 3 w i d h).1.2) = true).
  { intros i' d' h' Hpc. apply pay_run_next; [by rewrite Hpc|].
    unfold handler_step; rewrite Hpc.
    destruct (fault (t_env (w i'))) as [m|].
    - apply (pay_run_within 1); [lia|]. by apply (Hfail _ _ _ m).
    - destruct (insert_payment _ _ _ _) as [p d2].
      by apply (Hcomplete _ _ _ (success_payload p)). }
  assert (Hwait : ∀ i d h, pc h = loop_head 0 →
            is_done (pc (pay_run 50 w i d h).1.2) = true).
  { intros i' d' h' Hpc.
    by destruct (wait_loop_ends w 50 0 i' d' h') as (? & _); [done|lia|done|]. }
  assert (Hclaim : ∀ i d h, pc h = AtClaim →
            is_done (pc (pay_run 51 w i d h).1.2) = true).
  { intros i' d' h' Hpc. apply pay_run_next; [by rewrite Hpc|].
    unfold handler_step; rewrite Hpc.
    destruct (fault (t_env (w i'))) as [m|]; [by rewrite pay_run_done|].
    destruct (tryClaimKey _ _ _ _) as [[] d2]; cbn [fst snd].
    - apply (pay_run_within 3); [lia|]. by apply Hcharge.
    - by apply Hwait. }
  apply pay_run_next; [by rewrite Hselect|].
  unfold handler_step; rewrite Hselect.
  destruct (fault (t_env (w i))) as [m|]; [by rewrite pay_run_done|].
  destruct (select_status_response _ _) as [[s resp]|];
    [|by rewrite pay_run_done].
  destruct (status_eqb s completed); [by rewrite pay_run_done|].
  by apply Hclaim.
Qed.

Lemma serve_answers (clock : nat -> env) (rq : pay_request) (d : db) :
  ∃ answer, (serve clock rq d).1.1 = Some answer.
Proof.
  unfold serve. destruct (pay_begin rq) as [r|h] eqn:Hrq; [by eexists|].
  apply pay_begin_accepted in Hrq as (Hpc & _).
  pose proof (pay_run_total (λ i, alone (clock i)) 0 d h Hpc) as Hd.
  destruct (pay_run 52 _ 0 d h) as [[d' h'] tr]. simpl in *.
  destruct (pc h'); try done. by eexists.
Qed.

Example claim_race_three_callers :
  (claim_race "K" [(Some 2, 10); (Some 1, 20); (Some 1, 30)] reserved_db).1
  = [false; true; false].
Proof. vm_compute. reflexivity. Qed.

Example cleanup_mixed :
  let out := cleanup (calm 5000) mixed_db in
  out.1 = (0, Some 1%nat) ∧
  select_row "expired" out.2 = None ∧
  select_row "live" out.2 = select_row "live" mixed_db ∧
  select_row "claimed" out.2 = select_row "claimed" mixed_db ∧
  select_row "open" out.2 = select_row "open" mixed_db.
Proof. vm_compute. done. Qed.

Example wait_loop_sees_completed :
  let r := pay_run 50 winner_completes 0 processing_db
             (Handler "K" 2 5 (loop_head 0)) in
  pc r.1.2 = Done (Http 200 (JObj [("success", JBool true)])) ∧
  r.2 = [AtPoll 0; AtPoll 100; AtPoll 200].
Proof. vm_compute. done. Qed.

Lemma wait_loop_bounded_runs :
  let waiting := Handler "K" 2 5 (loop_head 0) in
  let seen := pay_run 50 winner_completes 0 processing_db waiting in
  let refused := pay_run 50 winner_fails 0 processing_db waiting in
  let unseen := pay_run 50 nobody_writes 0 processing_db waiting in
  (pc seen.1.2 = Done (Http 200 (JObj [("success", JBool true)])) ∧
   polls seen.2 = 3%nat) ∧
  (pc refused.1.2 =
     Done (Http 500 (JObj [("error", JStr "Previous attempt failed");
                           ("detail", JObj [("error", JStr "card declined")])])) ∧
   polls refused.2 = 2%nat) ∧
  (pc unseen.1.2 =
     Done (Http 202
             (JObj [("status", JStr "processing");
                    ("message",
                     JStr "Request being processed; check status endpoint.")])) ∧
   polls unseen.2 = 50%nat).
Proof.
  split; [|split].
  - destruct (wait_loop_bounded winner_completes 0 processing_db
                (Handler "K" 2 5 AtClaim))
      as (_ & _ & _ & _ & _ & _ & Hcompleted & _ & _).
    destruct (Hcompleted 2%nat (Some (JObj [("success", JBool true)])))
      as (Hpolls & Hanswer & _).
    + lia.
    + intros [|[|j']] Hj'; [exists None; by right|exists None; by right|lia].
    + vm_compute. reflexivity.
    + split; [exact (Hanswer _ eq_refl)|exact Hpolls].
  - destruct (wait_loop_bounded winner_fails 0 processing_db
                (Handler "K" 2 5 AtClaim))
      as (_ & _ & _ & _ & _ & _ & _ & Hfailed & _).
    destruct (Hfailed 1%nat (Some (JObj [("error", JStr "card declined")])))
      as (Hpolls & Hanswer & _).
    + lia.
    + intros [|j'] Hj'; [exists None; by right|lia].
    + vm_compute. reflexivity.
    + split; [exact (Hanswer _ eq_refl)|exact Hpolls].
  - destruct (wait_loop_bounded nobody_writes 0 processing_db
                (Handler "K" 2 5 AtClaim))
      as (_ & _ & _ & _ & _ & _ & _ & _ & Htimeout).
    apply Htimeout. intros j _. exists None. right.
    apply (sight_alone (λ i, calm (Z.of_nat i * 100 + 60))). intros n. reflexivity.
Defined.

(** ** The key state machine, step by step *)

Section forward.
Variable ttl : Z.

(** One step of the service moves a record forward or not at all:
    [reserved] to [processing] (a claim) or away (a sweep), [processing] to
    [completed] or [failed] (the outcome write); never backward, and never
    from [reserved] to a terminal state. *)
Lemma sys_step_forward (e : env) (a : action) (s : system) (k : string)
    (r : key_row) :
  sound s →
  idempotency_keys (sys_db s) !! k = Some r →
  match idempotency_keys (sys_db (sys_step ttl e a s)) !! k with
  | None => row_status r = reserved
  | Some r' =>
      r' = r ∨
      (row_status r = reserved ∧ row_status r' = processing) ∨
      (row_status r = processing ∧ terminal (row_status r') = true)
  end.
Proof.
  intros Hsound Hk. destruct a as [key dn u op|rq|i|]; simpl.
  - destruct (issue_keys ttl key dn e u op (sys_db s))
      as [->|(Hfresh & r' & _ & _ & ->)]; [rewrite Hk; by left|].
    rewrite lookup_insert_ne; [rewrite Hk; by left|]. intros ->. congruence.
  - destruct (pay_begin rq); simpl; rewrite Hk; by left.
  - destruct (sys_handlers s !! i) as [h|] eqn:Hh; [|rewrite Hk; by left].
    pose proof (handler_step_effect e (sys_db s) h) as (_ & Heff).
    destruct (handler_step e (sys_db s) h) as [d' h']. simpl in *.
    destruct Heff as [[-> _]|[(_ & r0 & Hr0 & Hs0 & ->)|(Hhold & _ & st & resp & Hterm & ->)]].
    + rewrite Hk. by left.
    + destruct (decide (idempKey h = k)) as [<-|Hne].
      * rewrite lookup_insert_eq. right. left.
        assert (r0 = r) as -> by congruence. done.
      * rewrite lookup_insert_ne by done. rewrite Hk. by left.
    + destruct (sound_held s Hsound i h Hh Hhold) as (r0 & Hr0 & Hs0).
      rewrite (record_outcome_keys _ _ _ _ _ r0 Hr0).
      destruct (decide (idempKey h = k)) as [<-|Hne].
      * rewrite lookup_insert_eq. right. right.
        assert (r0 = r) as -> by congruence. done.
      * rewrite lookup_insert_ne by done. rewrite Hk. by left.
  - destruct (cleanup_keys e (sys_db s) k) as [->|(-> & r0 & Hr0 & Hs0)];
      [rewrite Hk; by left|]. congruence.
Qed.
End forward.

(** ** Replaying a terminal record while the service runs *)


Section replay.
Variable ttl : Z.

End replay.


(** * Further properties of the code *)

(** ** Key issuer *)

Lemma or_null_nonzero (v : option Z) (n : Z) : or_null v = Some n → v = Some n ∧ n ≠ 0.
Proof.
  destruct v as [m|]; [|done]. simpl.
  destruct (Z.eqb_spec m 0); [done|]. by intros [= <-].
Qed.

Lemma issue_fresh (ttl : Z) (key : string) (date_now : Z) (e : env)
    (user_id : option Z) (operation : option string) (d : db) :
  fault e = None → idempotency_keys d !! key = None →
  issue ttl key date_now e user_id operation d =
  (Http 200 (JObj [("idempotencyKey", JStr key);
                   ("reserved_until", JNum (date_now + ttl * 60 * 1000))]),
   with_keys d (<[key := KeyRow reserved None (or_null user_id)
                           (or_null_str operation)
                           (Some (date_now + ttl * 60 * 1000))
                           (now e) (now e)]> (idempotency_keys d))).
Proof. intros He Hk. unfold issue, insert_key. by rewrite He, Hk. Qed.

(** X1. POST /idempotency-keys answers 200 exactly when the storage takes
    the INSERT and the key drawn has no record yet.  Then the answer carries
    the key and [reserved_until = Date.now() + TTL minutes], and the database
    gained one record under that key: [reserved], null response, owner and
    operation as sent (0 and the empty string stored as null), both
    timestamps the clock; every other record and the payments are as before.
    Otherwise the answer is 500 and the database is the one it was: a key
    that collides never replaces the record that holds it. *)
Theorem issue_spec (ttl : Z) (key : string) (date_now : Z) (e : env)
    (user_id : option Z) (operation : option string) (d : db) :
  let out := issue ttl key date_now e user_id operation d in
  (code out.1 = 200 ↔ fault e = None ∧ idempotency_keys d !! key = None) ∧
  (code out.1 = 200 →
     field "idempotencyKey" (body out.1) = Some (JStr key) ∧
     field "reserved_until" (body out.1)
       = Some (JNum (date_now + ttl * 60 * 1000)) ∧
     idempotency_keys out.2 !! key =
       Some (KeyRow reserved None (or_null user_id) (or_null_str operation)
                    (Some (date_now + ttl * 60 * 1000)) (now e) (now e)) ∧
     (∀ k, k ≠ key → idempotency_keys out.2 !! k = idempotency_keys d !! k) ∧
     payments out.2 = payments d ∧
     payments_id_seq out.2 = payments_id_seq d) ∧
  (code out.1 ≠ 200 → code out.1 = 500 ∧ out.2 = d) ∧
  (user_id = Some 0 → or_null user_id = None) ∧
  (operation = Some "" → or_null_str operation = None).
Proof.
  intros out. subst out.
  split; [|split; [|split; [|split]]].
  - unfold issue, insert_key. destruct (fault e); simpl; [naive_solver|].
    destruct (idempotency_keys d !! key); simpl; naive_solver.
  - unfold issue, insert_key. destruct (fault e); simpl; [done|].
    destruct (idempotency_keys d !! key) eqn:Hk; simpl; [done|]. intros _.
    rewrite lookup_insert_eq.
    repeat split; try done.
    intros k Hne. by rewrite lookup_insert_ne.
  - unfold issue, insert_key. destruct (fault e); simpl; [done|].
    by destruct (idempotency_keys d !! key).
  - by intros ->.
  - by intros ->.
Qed.

(** X2. A key just issued can be claimed by a caller exactly when the key
    was issued without owner or for that caller, and the claim arrives
    strictly before [reserved_until = Date.now() + TTL minutes]. *)
Theorem issue_then_claim (ttl : Z) (key : string) (date_now : Z) (e : env)
    (user_id : option Z) (operation : option string) (d : db)
    (claimant : option Z) (t : Z)
    (Hstore : fault e = None)
    (Hfresh : idempotency_keys d !! key = None) :
  let issued := (issue ttl key date_now e user_id operation d).2 in
  (tryClaimKey key claimant t issued).1 = true ↔
  (or_null user_id = None ∨ or_null user_id = or_null claimant) ∧
  t < date_now + ttl * 60 * 1000.
Proof.
  simpl. rewrite (issue_fresh _ _ _ _ _ _ _ Hstore Hfresh). simpl.
  unfold tryClaimKey. simpl. rewrite lookup_insert_eq.
  destruct (claimable _ (or_null claimant) t) eqn:Hc; simpl.
  - apply claimable_iff in Hc as (_ & Ho & Hw). simpl in *.
    split; [|done]. intros _. split; [done|].
    destruct Hw as [|(u & [= <-] & ?)]; done.
  - split; [done|]. intros [Ho Hw].
    assert (claimable (KeyRow reserved None (or_null user_id)
              (or_null_str operation) (Some (date_now + ttl * 60 * 1000))
              (now e) (now e)) (or_null claimant) t = true) as Hc'.
    { apply claimable_iff. simpl. split; [done|]. split; [done|].
      right. eauto. }
    congruence.
Qed.

Lemma delete_expired_issued (t : Z) (d : db) (key : string) (r : key_row) :
  idempotency_keys d !! key = None → expired t r = true →
  delete_expired t (with_keys d (<[key := r]> (idempotency_keys d))) =
  (S (delete_expired t d).1, (delete_expired t d).2).
Proof.
  intros Hk He. unfold delete_expired. simpl. f_equal.
  - rewrite map_filter_insert_True by done.
    rewrite map_size_insert_None; [done|].
    rewrite map_lookup_filter, Hk. done.
  - unfold with_keys. simpl. f_equal.
    rewrite map_filter_insert_False by (simpl; congruence).
    by rewrite delete_id.
Qed.

(** X3. A key issued and never claimed, once its window has elapsed: a
    claim attempt at or after [reserved_until] returns false and changes
    nothing; the record can still be read; a sweep strictly after
    [reserved_until] removes it, counting it, and leaves the database as a
    sweep would have left it had the key never been issued; the key then
    reads 404. *)
Theorem expired_key_is_swept (ttl : Z) (key : string) (date_now : Z) (e : env)
    (user_id : option Z) (operation : option string) (d : db)
    (claimant : option Z) (t_claim t_sweep : Z)
    (Hstore : fault e = None)
    (Hfresh : idempotency_keys d !! key = None)
    (Hlate : date_now + ttl * 60 * 1000 ≤ t_claim)
    (Hsweep : date_now + ttl * 60 * 1000 < t_sweep) :
  let issued := (issue ttl key date_now e user_id operation d).2 in
  let swept := cleanup (calm t_sweep) issued in
  tryClaimKey key claimant t_claim issued = (false, issued) ∧
  code (get_idempotency key issued) = 200 ∧
  swept = (0, Some (S (delete_expired t_sweep d).1), (delete_expired t_sweep d).2) ∧
  get_idempotency key swept.2 = Http 404 (JObj [("error", JStr "not found")]).
Proof.
  intros issued swept. subst swept issued.
  rewrite (issue_fresh _ _ _ _ _ _ _ Hstore Hfresh). cbn [fst snd].
  set (r := KeyRow reserved None (or_null user_id) (or_null_str operation)
                   (Some (date_now + ttl * 60 * 1000)) (now e) (now e)).
  assert (He : expired t_sweep r = true).
  { apply expired_iff. split; [done|]. eexists. split; [done|]. done. }
  assert (Hswept : cleanup (calm t_sweep)
                     (with_keys d (<[key := r]> (idempotency_keys d)))
                   = (0, Some (S (delete_expired t_sweep d).1),
                      (delete_expired t_sweep d).2)).
  { unfold cleanup. cbn [fault calm now].
    by rewrite (delete_expired_issued _ _ _ _ Hfresh He). }
  split; [|split; [|split]].
  - apply (tryClaimKey_unclaimable _ _ _ _ r); [apply lookup_insert_eq|].
    unfold claimable, window_open. simpl.
    destruct (Z.ltb_spec t_claim (date_now + ttl * 60 * 1000)); [lia|].
    by rewrite andb_false_r.
  - unfold get_idempotency, select_row. cbn [idempotency_keys with_keys].
    by rewrite lookup_insert_eq.
  - exact Hswept.
  - rewrite Hswept. cbn [snd].
    unfold get_idempotency, select_row.
    by rewrite delete_expired_lookup, Hfresh.
Qed.

(** ** Expiry sweeper, again *)

Lemma expired_mono (t t' : Z) (r : key_row) :
  t' ≤ t → expired t' r = true → expired t r = true.
Proof.
  intros Hle (Hs & u & Hu & Hlt)%expired_iff. apply expired_iff.
  split; [done|]. exists u. split; [done|lia].
Qed.

Lemma with_keys_eq (d : db) (m m' : gmap string key_row) :
  m = m' → with_keys d m = with_keys d m'.
Proof. by intros ->. Qed.

Lemma cleanup_calm (t : Z) (d : db) :
  cleanup (calm t) d = (0, Some (delete_expired t d).1, (delete_expired t d).2).
Proof. unfold cleanup. cbn [fault calm now]. by destruct (delete_expired t d). Qed.

(** X4. Sweeping is idempotent: a second sweep, at the same clock or an
    earlier one, deletes nothing and leaves the database of the first. *)
Theorem cleanup_twice (t t' : Z) (d : db) (Hle : t' ≤ t) :
  delete_expired t' (delete_expired t d).2 = (0%nat, (delete_expired t d).2) ∧
  cleanup (calm t') (cleanup (calm t) d).2 = (0, Some 0%nat, (cleanup (calm t) d).2).
Proof.
  assert (Hgone : filter (λ kv : string * key_row, expired t' kv.2 = true)
                    (idempotency_keys (delete_expired t d).2) = ∅).
  { apply map_eq. intros k. rewrite lookup_empty, map_lookup_filter.
    rewrite delete_expired_lookup.
    destruct (idempotency_keys d !! k) as [r|]; simpl; [|done].
    destruct (expired t r) eqn:He; simpl; [done|].
    case_guard; [|done]. simpl in *.
    by rewrite (expired_mono t t' r) in He. }
  assert (Hkept : filter (λ kv : string * key_row, expired t' kv.2 = false)
                    (idempotency_keys (delete_expired t d).2)
                  = idempotency_keys (delete_expired t d).2).
  { apply map_eq. intros k. rewrite map_lookup_filter.
    rewrite delete_expired_lookup.
    destruct (idempotency_keys d !! k) as [r|]; simpl; [|done].
    destruct (expired t r) eqn:He; simpl; [done|].
    case_guard; [done|]. simpl in *.
    destruct (expired t' r) eqn:He'; [|done].
    by rewrite (expired_mono t t' r) in He. }
  assert (Hfirst : delete_expired t' (delete_expired t d).2
                   = (0%nat, (delete_expired t d).2)).
  { unfold delete_expired at 1. rewrite Hgone, Hkept, map_size_empty.
    by destruct (delete_expired t d) as [n [m ps sq]]. }
  split; [done|].
  rewrite (cleanup_calm t d). cbn [snd]. rewrite cleanup_calm. by rewrite Hfirst.
Qed.

Lemma tryClaimKey_absent (key : string) (user_id : option Z) (t : Z) (d : db) :
  idempotency_keys d !! key = None → tryClaimKey key user_id t d = (false, d).
Proof. intros Hk. unfold tryClaimKey. by rewrite Hk. Qed.

Lemma tryClaimKey_claimable (key : string) (user_id : option Z) (t : Z) (d : db)
    (r : key_row) :
  idempotency_keys d !! key = Some r →
  claimable r (or_null user_id) t = true →
  tryClaimKey key user_id t d =
  (true, with_keys d (<[key := claimed_row r t]> (idempotency_keys d))).
Proof. intros Hk Hc. unfold tryClaimKey. by rewrite Hk, Hc. Qed.

(** X5. The sweeper only removes records no claim could win any more: a
    claim attempt at a clock not before the sweep's returns the same result
    whether the sweep ran before it or not, and claiming then sweeping
    leaves the database that sweeping then claiming leaves. *)
Theorem sweep_claim_commute (t t' : Z) (key : string) (user_id : option Z) (d : db)
    (Hle : t ≤ t') :
  let swept := (delete_expired t d).2 in
  (tryClaimKey key user_id t' swept).1 = (tryClaimKey key user_id t' d).1 ∧
  (tryClaimKey key user_id t' swept).2
    = (delete_expired t (tryClaimKey key user_id t' d).2).2.
Proof.
  intros swept. subst swept.
  pose proof (delete_expired_lookup t d key) as Hl.
  destruct (idempotency_keys d !! key) as [r|] eqn:Hk.
  - destruct (expired t r) eqn:He.
    + assert (claimable r (or_null user_id) t' = false) as Hc.
      { apply expired_iff in He as (_ & u & Hu & Hlt).
        unfold claimable, window_open. rewrite Hu.
        destruct (Z.ltb_spec t' u); [lia|]. by rewrite andb_false_r. }
      rewrite (tryClaimKey_absent _ _ _ _ Hl).
      by rewrite (tryClaimKey_unclaimable _ _ _ _ r Hk Hc).
    + destruct (claimable r (or_null user_id) t') eqn:Hc.
      * rewrite (tryClaimKey_claimable _ _ _ _ r Hl Hc).
        rewrite (tryClaimKey_claimable _ _ _ _ r Hk Hc).
        split; [done|]. cbn [snd].
        unfold delete_expired, with_keys. cbn [snd idempotency_keys payments payments_id_seq].
        f_equal. by rewrite map_filter_insert_True.
      * rewrite (tryClaimKey_unclaimable _ _ _ _ r Hl Hc).
        by rewrite (tryClaimKey_unclaimable _ _ _ _ r Hk Hc).
  - rewrite (tryClaimKey_absent _ _ _ _ Hl).
    by rewrite (tryClaimKey_absent _ _ _ _ Hk).
Qed.

(** ** POST /pay: the checks on entry and the answers without execution *)

Lemma or_null_str_Some (v : option string) (k : string) :
  or_null_str v = Some k ↔ v = Some k ∧ k ≠ "".
Proof.
  destruct v as [s|]; simpl; [|naive_solver].
  destruct (String.eqb_spec s ""); naive_solver.
Qed.

Lemma or_null_Some (v : option Z) (n : Z) :
  or_null v = Some n ↔ v = Some n ∧ n ≠ 0.
Proof.
  destruct v as [m|]; simpl; [|naive_solver].
  destruct (Z.eqb_spec m 0); naive_solver.
Qed.

Lemma or_null_None (v : option Z) : or_null v = None ↔ v = None ∨ v = Some 0.
Proof.
  destruct v as [m|]; simpl; [|naive_solver].
  destruct (Z.eqb_spec m 0); naive_solver.
Qed.

Lemma or_null_str_None (v : option string) :
  or_null_str v = None ↔ v = None ∨ v = Some "".
Proof.
  destruct v as [s|]; simpl; [|naive_solver].
  destruct (String.eqb_spec s ""); naive_solver.
Qed.

(** X6. POST /pay answers 400 "Missing Idempotency-Key header" exactly when
    the header is absent or empty; otherwise 400 "Missing user_id or amount"
    exactly when [user_id] or [amount] is absent or 0; a request so rejected
    issues no statement and leaves the database alone.  Every other request
    is taken up with its key, user and amount, at the check of the key. *)
Theorem pay_entry_checks (clock : nat -> env) (rq : pay_request) (d : db) :
  (pay_begin rq = inl missing_key ↔
     req_key rq = None ∨ req_key rq = Some "") ∧
  (pay_begin rq = inl missing_fields ↔
     (∃ k, req_key rq = Some k ∧ k ≠ "") ∧
     (req_user_id rq = None ∨ req_user_id rq = Some 0 ∨
      req_amount rq = None ∨ req_amount rq = Some 0)) ∧
  (∀ h, pay_begin rq = inr h ↔
     ∃ k u a, rq = PayRequest (Some k) (Some u) (Some a) ∧
              k ≠ "" ∧ u ≠ 0 ∧ a ≠ 0 ∧ h = Handler k u a AtSelect) ∧
  (∀ r, pay_begin rq = inl r →
        code r = 400 ∧ serve clock rq d = (Some r, d, [])).
Proof.
  destruct rq as [key user amount]. unfold serve, pay_begin. simpl.
  destruct (or_null_str key) as [k|] eqn:Hkey.
  - apply or_null_str_Some in Hkey as [-> Hk].
    destruct (or_null user) as [u|] eqn:Hu;
      [destruct (or_null amount) as [a|] eqn:Ha|].
    + apply or_null_Some in Hu as [-> Hu]. apply or_null_Some in Ha as [-> Ha].
      split; [|split; [|split]]; [naive_solver|naive_solver| |done].
      intros h. split; [intros [= <-]; by exists k, u, a|].
      by intros (k' & u' & a' & [= -> -> ->] & _ & _ & _ & ->).
    + apply or_null_None in Ha.
      split; [|split; [|split]].
      * naive_solver.
      * split; [|done]. intros _. split; [eauto|]. naive_solver.
      * intros h. split; [done|].
        intros (k' & u' & a' & [= -> -> ->] & _ & _ & Ha' & _). naive_solver.
      * by intros r [= <-].
    + apply or_null_None in Hu.
      split; [|split; [|split]].
      * naive_solver.
      * split; [|done]. intros _. split; [eauto|]. naive_solver.
      * intros h. split; [done|].
        intros (k' & u' & a' & [= -> -> ->] & _ & Hu' & _). naive_solver.
      * by intros r [= <-].
  - apply or_null_str_None in Hkey.
    split; [|split; [|split]].
    + done.
    + split; [done|]. intros [(k & Hk & Hne) _]. naive_solver.
    + intros h. split; [done|].
      intros (k' & u' & a' & [= -> -> ->] & Hk & _). naive_solver.
    + by intros r [= <-].
Qed.

(** X7. A well-formed POST /pay whose key has no record is answered 400
    "Unknown idempotency key" after the one SELECT; no record is created for
    the key and nothing else changes. *)
Theorem unknown_key_rejected (clock : nat -> env) (rq : pay_request) (d : db)
    (h : handler)
    (Hrq : pay_begin rq = inr h)
    (Hstore : fault (clock 0%nat) = None)
    (Habsent : idempotency_keys d !! idempKey h = None) :
  serve clock rq d = (Some unknown_key, d, [AtSelect]) ∧
  code unknown_key = 400 ∧
  get_idempotency (idempKey h) (serve clock rq d).1.2
    = Http 404 (JObj [("error", JStr "not found")]).
Proof.
  destruct (pay_begin_accepted _ _ Hrq) as (Hpc & _).
  assert (Hserve : serve clock rq d = (Some unknown_key, d, [AtSelect])).
  { rewrite (serve_accepted _ _ _ _ Hrq).
    rewrite pay_run_alone_step by by rewrite Hpc.
    unfold handler_step, select_status_response. rewrite Hpc, Hstore, Habsent.
    cbv beta iota zeta. cbn [fst snd]. rewrite pay_run_done by done.
    by rewrite ?Hpc. }
  rewrite Hserve. split; [done|]. split; [done|].
  unfold get_idempotency, select_row. cbn [fst snd]. by rewrite Habsent.
Qed.

Lemma step_claim_throws (e : env) (d : db) (h : handler) (message : string) :
  pc h = AtClaim → fault e = Some message →
  handler_step e d h = (d, at_pc h (Done (server_error message))).
Proof. intros Hpc He. unfold handler_step. by rewrite Hpc, He. Qed.

(** X8. When the storage rejects the first SELECT of a well-formed request,
    or takes it (the record not being [completed]) and rejects the claim,
    the answer is 500 "Server error" with the storage's message, and the
    database is unchanged: no claim was taken and no payment made. *)
Theorem storage_rejects_early (clock : nat -> env) (rq : pay_request) (d : db)
    (h : handler) (message : string)
    (Hrq : pay_begin rq = inr h) :
  (fault (clock 0%nat) = Some message →
   serve clock rq d = (Some (server_error message), d, [AtSelect])) ∧
  (∀ r, fault (clock 0%nat) = None →
        idempotency_keys d !! idempKey h = Some r →
        row_status r ≠ completed →
        fault (clock 1%nat) = Some message →
        serve clock rq d = (Some (server_error message), d, [AtSelect; AtClaim])) ∧
  code (server_error message) = 500.
Proof.
  destruct (pay_begin_accepted _ _ Hrq) as (Hpc & _).
  split; [|split; [|done]].
  - intros H0. rewrite (serve_accepted _ _ _ _ Hrq).
    rewrite pay_run_alone_step by by rewrite Hpc.
    unfold handler_step. rewrite Hpc, H0.
    cbv beta iota zeta. cbn [fst snd]. rewrite pay_run_done by done.
    by rewrite ?Hpc.
  - intros r H0 Hr Hs H1. rewrite (serve_accepted _ _ _ _ Hrq).
    rewrite pay_run_alone_step by by rewrite Hpc.
    rewrite (step_select _ _ _ r Hpc H0 Hr).
    assert (status_eqb (row_status r) completed = false) as ->.
    { destruct (status_eqb (row_status r) completed) eqn:He; [|done].
      by apply status_eqb_eq in He. }
    cbv beta iota zeta. cbn [fst snd].
    rewrite pay_run_alone_step by done.
    rewrite (step_claim_throws _ _ _ message) by done.
    cbv beta iota zeta. cbn [fst snd]. rewrite pay_run_done by done.
    by rewrite ?Hpc.
Qed.

(** ** POST /pay: the paths through the payment *)

Lemma step_charge (e : env) (d : db) (h : handler) :
  pc h = AtCharge → fault e = None →
  handler_step e d h =
  ((insert_payment (h_user_id h) (h_amount h) (now e) d).2,
   at_pc h (AtComplete
              (success_payload (insert_payment (h_user_id h) (h_amount h) (now e) d).1))).
Proof. intros Hpc He. unfold handler_step. by rewrite Hpc, He. Qed.

Lemma step_complete_throws (e : env) (d : db) (h : handler) (payload : json)
    (message : string) :
  pc h = AtComplete payload → fault e = Some message →
  handler_step e d h = (d, at_pc h (AtFail message)).
Proof. intros Hpc He. unfold handler_step. by rewrite Hpc, He. Qed.

(** The conditions of the claim, for the user of a request taken up. *)
Lemma claimable_by (rq : pay_request) (h : handler) (r : key_row) (t : Z) :
  pay_begin rq = inr h →
  row_status r = reserved →
  row_user_id r = None ∨ row_user_id r = Some (h_user_id h) →
  (row_reserved_until r = None ∨ ∃ u, row_reserved_until r = Some u ∧ t < u) →
  claimable r (or_null (Some (h_user_id h))) t = true.
Proof.
  intros (_ & _ & Hu & _)%pay_begin_accepted Hs Ho Hw.
  apply or_null_Some in Hu as [_ Hu].
  apply claimable_iff. split; [done|]. split; [|done].
  simpl. destruct (Z.eqb_spec (h_user_id h) 0); [done|]. done.
Qed.

(** The check of the key and a claim that wins, then the rest. *)
Lemma serve_claim_won (clock : nat -> env) (rq : pay_request) (d : db)
    (h : handler) (r : key_row) :
  pay_begin rq = inr h →
  fault (clock 0%nat) = None → fault (clock 1%nat) = None →
  idempotency_keys d !! idempKey h = Some r →
  claimable r (or_null (Some (h_user_id h))) (now (clock 1%nat)) = true →
  serve clock rq d =
  let d2 := with_keys d (<[idempKey h := claimed_row r (now (clock 1%nat))]>
                           (idempotency_keys d)) in
  let res := pay_run 50 (λ i, alone (clock i)) 2 d2
               (at_pc (at_pc h AtClaim) AtCharge) in
  (match pc res.1.2 with Done a => Some a | _ => None end, res.1.1,
   AtSelect :: AtClaim :: res.2).
Proof.
  intros Hrq H0 H1 Hr Hc.
  destruct (pay_begin_accepted _ _ Hrq) as (Hpc & _).
  pose proof Hc as (Hs & _)%claimable_iff.
  rewrite (serve_accepted _ _ _ _ Hrq).
  rewrite pay_run_alone_step by by rewrite Hpc.
  rewrite (step_select _ _ _ r Hpc H0 Hr), Hs.
  simpl status_eqb. cbv beta iota zeta. cbn [fst snd].
  rewrite pay_run_alone_step by done.
  rewrite (step_claim _ _ (at_pc h AtClaim) eq_refl H1).
  cbn [idempKey h_user_id at_pc].
  rewrite (tryClaimKey_claimable _ _ _ _ r Hr Hc).
  cbv beta iota zeta. cbn [fst snd]. by rewrite Hpc.
Qed.

Lemma record_after_claim (key : string) (s : status) (resp : json) (t1 t : Z)
    (keys : gmap string key_row) (ps : list payment) (sq : Z) (r : key_row) :
  record_outcome key s resp t (Db (<[key := claimed_row r t1]> keys) ps sq) =
  Db (<[key := KeyRow s (Some resp) (row_user_id r) (row_operation r)
                      (row_reserved_until r) (row_created_at r) t]> keys) ps sq.
Proof.
  unfold record_outcome. simpl. rewrite lookup_insert_eq.
  unfold with_keys. simpl. by rewrite insert_insert_eq.
Qed.


(** X10. When the payment is committed and the storage then rejects the
    write of [completed], the catch block records the key as [failed] with
    the storage's message and answers 500 "Payment failed": the payment row
    stays in the table although the key says [failed]. *)
Theorem completed_write_rejected (clock : nat -> env) (rq : pay_request) (d : db)
    (h : handler) (r : key_row) (message : string)
    (Hrq : pay_begin rq = inr h)
    (Hcalm : ∀ n, (n < 3)%nat → fault (clock n) = None)
    (Hreject : fault (clock 3%nat) = Some message)
    (Hcatch : fault (clock 4%nat) = None)
    (Hrow : idempotency_keys d !! idempKey h = Some r)
    (Hstatus : row_status r = reserved)
    (Howner : row_user_id r = None ∨ row_user_id r = Some (h_user_id h))
    (Hwindow : row_reserved_until r = None ∨
               ∃ u, row_reserved_until r = Some u ∧ now (clock 1%nat) < u) :
  let p := Payment (payments_id_seq d + 1) (h_user_id h) (h_amount h)
                   (now (clock 2%nat)) in
  let d' := Db (<[idempKey h := KeyRow failed (Some (JObj [("error", JStr message)]))
                                      (row_user_id r) (row_operation r)
                                      (row_reserved_until r) (row_created_at r)
                                      (now (clock 4%nat))]>
                  (idempotency_keys d))
               (payments d ++ [p]) (payments_id_seq d + 1) in
  serve clock rq d =
    (Some (payment_failed message), d',
     [AtSelect; AtClaim; AtCharge; AtComplete (success_payload p); AtFail message]) ∧
  code (payment_failed message) = 500.
Proof.
  intros p d'.
  pose proof (claimable_by rq h r _ Hrq Hstatus Howner Hwindow) as Hc.
  split; [|done].
  rewrite (serve_claim_won _ _ _ _ r Hrq) by (try apply Hcalm; try done; lia).
  cbv zeta.
  rewrite pay_run_alone_step by done.
  rewrite step_charge by (try apply Hcalm; try done; lia).
  cbv beta iota zeta. cbn [fst snd at_pc h_user_id h_amount idempKey].
  rewrite pay_run_alone_step by done.
  rewrite (step_complete_throws _ _ _ (success_payload p) message) by done.
  cbv beta iota zeta. cbn [fst snd at_pc h_user_id h_amount idempKey pc].
  rewrite pay_run_alone_step by done.
  rewrite (step_fail _ _ _ message) by done.
  cbv beta iota zeta. cbn [fst snd at_pc h_user_id h_amount idempKey pc].
  rewrite pay_run_done by done. cbn [fst snd pc].
  unfold insert_payment, with_keys.
  cbn [fst snd idempotency_keys payments payments_id_seq].
  by rewrite record_after_claim.
Qed.


(** ** POST /pay: what a request never touches *)

Lemma own_record_only_refl (key : string) (d : db) : own_record_only key d d.
Proof. repeat split; try done. intros r Hr. by exists r. Qed.

Lemma own_record_only_keys (key : string) (d d' : db) :
  idempotency_keys d' = idempotency_keys d → own_record_only key d d'.
Proof.
  intros Heq. unfold own_record_only. rewrite Heq.
  repeat split; try done. intros r Hr. by exists r.
Qed.

Lemma own_record_only_trans (key : string) (d1 d2 d3 : db) :
  own_record_only key d1 d2 → own_record_only key d2 d3 →
  own_record_only key d1 d3.
Proof.
  intros (Ho1 & Hn1 & Hs1) (Ho2 & Hn2 & Hs2). split; [|split].
  - intros k Hk. by rewrite Ho2, Ho1.
  - intros Hk. by apply Hn2, Hn1.
  - intros r Hr. destruct (Hs1 r Hr) as (r2 & Hr2 & ? & ? & ? & ?).
    destruct (Hs2 r2 Hr2) as (r3 & Hr3 & ? & ? & ? & ?).
    exists r3. split; [done|]. repeat split; congruence.
Qed.

Lemma own_record_only_insert (key : string) (d d' : db) (r r' : key_row) :
  idempotency_keys d !! key = Some r →
  idempotency_keys d' = <[key := r']> (idempotency_keys d) →
  row_user_id r' = row_user_id r → row_operation r' = row_operation r →
  row_reserved_until r' = row_reserved_until r →
  row_created_at r' = row_created_at r →
  own_record_only key d d'.
Proof.
  intros Hr Heq ? ? ? ?. unfold own_record_only. rewrite Heq. split; [|split].
  - intros k Hk. by rewrite lookup_insert_ne.
  - congruence.
  - intros r0 Hr0. exists r'. rewrite lookup_insert_eq.
    assert (r0 = r) as -> by congruence. done.
Qed.

Lemma record_outcome_own (key : string) (s : status) (resp : json) (t : Z) (d : db) :
  own_record_only key d (record_outcome key s resp t d).
Proof.
  unfold record_outcome.
  destruct (idempotency_keys d !! key) as [r|] eqn:Hr;
    [|apply own_record_only_refl].
  by apply (own_record_only_insert _ _ _ r (recorded_row r s resp t)).
Qed.

(** One statement of a handler: the keys, and the payments. *)
Lemma handler_step_frame (e : env) (d : db) (h : handler) :
  let d' := (handler_step e d h).1 in
  let h' := (handler_step e d h).2 in
  own_record_only (idempKey h) d d' ∧
  idempKey h' = idempKey h ∧ h_user_id h' = h_user_id h ∧ h_amount h' = h_amount h ∧
  ((payments d' = payments d ∧ payments_id_seq d' = payments_id_seq d ∧
    (past_charge (pc h) = true → past_charge (pc h') = true)) ∨
   (past_charge (pc h) = false ∧ past_charge (pc h') = true ∧
    payments d' = (payments d ++
      [Payment (payments_id_seq d + 1) (h_user_id h) (h_amount h) (now e)])%list ∧
    payments_id_seq d' = payments_id_seq d + 1)).
Proof.
  unfold handler_step.
  destruct (pc h) as [| | |payload|message|waited|answer] eqn:Hpc;
    destruct (fault e) as [m|] eqn:He; cbn [fst snd];
    try (split; [apply own_record_only_refl|]; repeat split; try done;
         left; by rewrite ?Hpc).
  - destruct (select_status_response (idempKey h) d) as [[s resp]|];
      [destruct (status_eqb s completed)|]; cbn [fst snd];
      (split; [apply own_record_only_refl|]); repeat split; try done; by left.
  - pose proof (tryClaimKey_won (idempKey h) (Some (h_user_id h)) (now e) d) as Hw.
    pose proof (tryClaimKey_lost (idempKey h) (Some (h_user_id h)) (now e) d) as Hl.
    destruct (tryClaimKey (idempKey h) (Some (h_user_id h)) (now e) d)
      as [[] d'] eqn:Hclaim; cbn [fst snd] in *.
    + destruct (Hw eq_refl) as (r & Hr & _ & ->).
      split; [by apply (own_record_only_insert _ _ _ r (claimed_row r (now e)))|].
      repeat split; try done. by left.
    + rewrite (Hl eq_refl).
      split; [apply own_record_only_refl|]. repeat split; try done. by left.
  - split; [by apply own_record_only_keys|]. repeat split; try done. by right.
  - split; [apply record_outcome_own|]. repeat split; try done. left.
    repeat split; unfold record_outcome;
      by destruct (idempotency_keys d !! idempKey h).
  - split; [apply record_outcome_own|]. repeat split; try done. left.
    repeat split; unfold record_outcome;
      by destruct (idempotency_keys d !! idempKey h).
  - destruct (select_status_response (idempKey h) d) as [[s resp]|];
      [destruct (status_eqb s completed); [|destruct (status_eqb s failed)]|];
      cbn [fst snd]; (split; [apply own_record_only_refl|]);
      repeat split; try done; left; repeat split; try done.
    unfold loop_head. by destruct (waited + intervalMs <? maxWaitMs).
Qed.

Lemma pay_run_frame (clock : nat -> env) (fuel : nat) :
  ∀ (i : nat) (d : db) (h : handler),
    let res := pay_run fuel (λ i, alone (clock i)) i d h in
    own_record_only (idempKey h) d res.1.1 ∧
    ∃ l, payments res.1.1 = (payments d ++ l)%list ∧
         (length l ≤ 1)%nat ∧
         (past_charge (pc h) = true → l = []) ∧
         Forall (λ p, pay_user_id p = h_user_id h ∧ pay_amount p = h_amount h ∧
                      payments_id_seq d < pay_id p) l.
Proof.
  induction fuel as [|fuel IH]; intros i d h.
  { simpl. split; [apply own_record_only_refl|].
    exists []. rewrite app_nil_r. split; [done|]. split; [simpl; lia|]. by split. }
  destruct (is_done (pc h)) eqn:Hd.
  { rewrite pay_run_done by done. simpl. split; [apply own_record_only_refl|].
    exists []. rewrite app_nil_r. split; [done|]. split; [simpl; lia|]. by split. }
  rewrite pay_run_alone_step by done. cbv zeta. cbn [fst snd].
  pose proof (handler_step_frame (clock i) d h) as (Hown & Hk & Hu & Ha & Hpay).
  specialize (IH (S i) (handler_step (clock i) d h).1 (handler_step (clock i) d h).2).
  cbv zeta in IH. destruct IH as (Hown' & l & Hl & Hlen & Hpast & Hall).
  rewrite Hk in Hown'. rewrite Hu, Ha in Hall.
  split; [by eapply own_record_only_trans|].
  destruct Hpay as [(Hp & Hseq & Hpc)|(Hnot & Hpc & Hp & Hseq)].
  - exists l. rewrite Hl, Hp. repeat split; try done.
    + intros Hh. apply Hpast. by apply Hpc.
    + by rewrite <- Hseq.
  - rewrite (Hpast Hpc) in Hl. rewrite app_nil_r in Hl.
    exists [Payment (payments_id_seq d + 1) (h_user_id h) (h_amount h)
                    (now (clock i))].
    rewrite Hl, Hp. split; [done|]. split; [simpl; lia|]. split; [congruence|].
    constructor; [|done]. simpl. repeat split. lia.
Qed.

(** X12. Whatever the request and whatever the storage answers, serving one
    POST /pay changes no record but that of the key presented, creates and
    deletes no record, never changes the owner, operation, window or
    creation time of that record, and adds at most one row to [payments],
    with a fresh id and the request's user and amount; rows already there
    stay. *)
Theorem serve_frame (clock : nat -> env) (rq : pay_request) (d : db) :
  let after := (serve clock rq d).1.2 in
  (∀ k, req_key rq ≠ Some k →
        idempotency_keys after !! k = idempotency_keys d !! k) ∧
  (∀ k, is_Some (idempotency_keys after !! k) ↔
        is_Some (idempotency_keys d !! k)) ∧
  (∀ k r, idempotency_keys d !! k = Some r →
          ∃ r', idempotency_keys after !! k = Some r' ∧
                row_user_id r' = row_user_id r ∧
                row_operation r' = row_operation r ∧
                row_reserved_until r' = row_reserved_until r ∧
                row_created_at r' = row_created_at r) ∧
  (∃ l, payments after = (payments d ++ l)%list ∧ (length l ≤ 1)%nat ∧
        Forall (λ p, Some (pay_user_id p) = req_user_id rq ∧
                     Some (pay_amount p) = req_amount rq ∧
                     payments_id_seq d < pay_id p) l).
Proof.
  intros after. subst after.
  destruct (pay_begin rq) as [resp|h] eqn:Hrq.
  { unfold serve. rewrite Hrq. cbn [fst snd].
    split; [done|]. split; [done|]. split; [eauto 10|].
    exists []. rewrite app_nil_r. split; [done|]. split; [simpl; lia|]. done. }
  rewrite (serve_accepted _ _ _ _ Hrq). cbv zeta. cbn [fst snd].
  destruct (pay_begin_accepted _ _ Hrq) as (_ & (Hk & _)%or_null_str_Some
                                            & (Hu & _)%or_null_Some
                                            & (Ha & _)%or_null_Some).
  destruct (pay_run_frame clock 52 0 d h) as ((Hothers & Hnone & Hsame) & l & Hl & Hlen & _ & Hall).
  split; [|split; [|split]].
  - intros k Hne. apply Hothers. intros ->. by rewrite Hk in Hne.
  - intros k. destruct (decide (k = idempKey h)) as [->|Hne].
    + destruct (idempotency_keys d !! idempKey h) as [r|] eqn:Hr.
      * destruct (Hsame r eq_refl) as (r' & -> & _). by split; eauto.
      * by rewrite (Hnone eq_refl).
    + by rewrite Hothers.
  - intros k r Hr. destruct (decide (k = idempKey h)) as [->|Hne].
    + by apply Hsame.
    + exists r. by rewrite Hothers.
  - exists l. split; [done|]. split; [done|].
    eapply Forall_impl; [exact Hall|]. intros p (-> & -> & ?). by rewrite Hu, Ha.
Qed.

(** ** The payments table in the running service *)

Lemma issue_payments (ttl : Z) (key : string) (date_now : Z) (e : env)
    (user_id : option Z) (operation : option string) (d : db) :
  payments (issue ttl key date_now e user_id operation d).2 = payments d ∧
  payments_id_seq (issue ttl key date_now e user_id operation d).2
    = payments_id_seq d.
Proof.
  unfold issue, insert_key. destruct (fault e); [done|].
  by destruct (idempotency_keys d !! key).
Qed.

Lemma cleanup_payments (e : env) (d : db) :
  payments (cleanup e d).2 = payments d ∧
  payments_id_seq (cleanup e d).2 = payments_id_seq d.
Proof. unfold cleanup. by destruct (fault e). Qed.

(** One step of the service: the payments stay, or one row is appended with
    the next value of the sequence. *)
Lemma sys_step_payments (ttl : Z) (e : env) (a : action) (s : system) :
  let d := sys_db s in
  let d' := sys_db (sys_step ttl e a s) in
  (payments d' = payments d ∧ payments_id_seq d' = payments_id_seq d) ∨
  (∃ u amount t,
     payments d' = (payments d ++ [Payment (payments_id_seq d + 1) u amount t])%list ∧
     payments_id_seq d' = payments_id_seq d + 1).
Proof.
  destruct a as [key dn u op|rq|i|]; simpl.
  - left. apply issue_payments.
  - left. by destruct (pay_begin rq).
  - destruct (sys_handlers s !! i) as [h|]; [|by left].
    pose proof (handler_step_frame e (sys_db s) h) as (_ & _ & _ & _ & Hpay).
    destruct (handler_step e (sys_db s) h) as [d' h']. simpl in *.
    destruct Hpay as [(? & ? & _)|(_ & _ & ? & ?)]; [by left|right; eauto].
  - left. apply cleanup_payments.
Qed.

Lemma payments_in_order_step (d d' : db) :
  payments_in_order d →
  (payments d' = payments d ∧ payments_id_seq d' = payments_id_seq d) ∨
  (∃ u amount t,
     payments d' = (payments d ++ [Payment (payments_id_seq d + 1) u amount t])%list ∧
     payments_id_seq d' = payments_id_seq d + 1) →
  payments_in_order d'.
Proof.
  intros [Hasc Hle] [[Hp Hs]|(u & a & t & Hp & Hs)]; unfold payments_in_order;
    rewrite Hp, Hs; [done|].
  split.
  - intros i j p q Hi Hj Hij.
    apply lookup_snoc_Some in Hi as [[_ Hi]|[-> <-]];
      apply lookup_snoc_Some in Hj as [[Hjl Hj]|[-> <-]].
    + by eapply Hasc.
    + simpl. apply list_elem_of_lookup_2 in Hi. specialize (Hle p Hi). lia.
    + lia.
    + lia.
  - intros p [Hp'|Hp']%elem_of_app.
    + specialize (Hle p Hp'). lia.
    + apply list_elem_of_singleton in Hp' as ->. simpl. lia.
Qed.

Lemma sys_run_in_order (ttl : Z) (sched : list (env * action)) (s : system) :
  payments_in_order (sys_db s) →
  payments_in_order (sys_db (sys_run ttl sched s)) ∧
  payments (sys_db s) `prefix_of` payments (sys_db (sys_run ttl sched s)).
Proof.
  revert s. induction sched as [|[e a] rest IH]; intros s Hs; [done|].
  simpl. pose proof (sys_step_payments ttl e a s) as Hstep. simpl in Hstep.
  destruct (IH (sys_step ttl e a s)) as [Hord Hpre].
  { by eapply payments_in_order_step. }
  split; [done|]. etrans; [|exact Hpre].
  destruct Hstep as [[-> _]|(u & am & t & -> & _)]; [done|].
  by apply prefix_app_r.
Qed.

(** X13. In the running service the payments table only grows at its end,
    and from a table whose ids are increasing and not above the sequence
    (the empty table, for one) it stays so: every row carries an id larger
    than all rows before it, so no two rows share an id. *)
Theorem payments_append_only (ttl : Z) (sched : list (env * action)) (s : system)
    (Hinit : payments_in_order (sys_db s)) :
  let s' := sys_run ttl sched s in
  payments (sys_db s) `prefix_of` payments (sys_db s') ∧
  payments_in_order (sys_db s') ∧
  NoDup (pay_id <$> payments (sys_db s')) ∧
  payments_id_seq (sys_db s) ≤ payments_id_seq (sys_db s').
Proof.
  intros s'. subst s'.
  destruct (sys_run_in_order ttl sched s Hinit) as [Hord Hpre].
  split; [done|]. split; [done|]. split.
  - destruct Hord as [Hasc _]. apply NoDup_alt. intros i j x Hi Hj.
    apply list_lookup_fmap_Some in Hi as (p & -> & Hp).
    apply list_lookup_fmap_Some in Hj as (q & Heq & Hq).
    destruct (Nat.lt_trichotomy i j) as [Hlt|[->|Hlt]]; [|done|].
    + specialize (Hasc i j p q Hp Hq Hlt). lia.
    + specialize (Hasc j i q p Hq Hp Hlt). lia.
  - clear Hord Hpre Hinit. revert s.
    induction sched as [|[e a] rest IH]; intros s; [done|].
    simpl. specialize (IH (sys_step ttl e a s)).
    pose proof (sys_step_payments ttl e a s) as Hstep. simpl in Hstep.
    destruct Hstep as [[_ Hs]|(u & am & t & _ & Hs)]; lia.
Qed.

(** ** GET /payments *)

Lemma insert_desc_perm (p : payment) (l : list payment) :
  insert_desc p l ≡ₚ p :: l.
Proof.
  induction l as [|q l IH]; simpl; [done|].
  destruct (pay_id q <? pay_id p); [done|].
  rewrite IH. apply Permutation_swap.
Qed.

Lemma insert_desc_sorted (p : payment) (l : list payment) :
  StronglySorted id_desc l → StronglySorted id_desc (insert_desc p l).
Proof.
  induction 1 as [|q l Hl IH Hq]; simpl; [repeat constructor|].
  destruct (Z.ltb_spec (pay_id q) (pay_id p)).
  - constructor; [by constructor|]. constructor; [unfold id_desc; lia|].
    eapply Forall_impl; [exact Hq|]. unfold id_desc. intros; lia.
  - constructor; [done|]. rewrite insert_desc_perm.
    constructor; [unfold id_desc; lia|done].
Qed.

Lemma order_by_id_desc_perm (l : list payment) : order_by_id_desc l ≡ₚ l.
Proof.
  induction l as [|p l IH]; simpl; [done|].
  by rewrite insert_desc_perm, IH.
Qed.

Lemma order_by_id_desc_sorted (l : list payment) :
  StronglySorted id_desc (order_by_id_desc l).
Proof.
  induction l as [|p l IH]; simpl; [constructor|]. by apply insert_desc_sorted.
Qed.

Lemma insert_desc_last (p : payment) (l : list payment) :
  Forall (λ q, pay_id p ≤ pay_id q) l → insert_desc p l = (l ++ [p])%list.
Proof.
  induction 1 as [|q l Hq _ IH]; simpl; [done|].
  destruct (Z.ltb_spec (pay_id q) (pay_id p)); [lia|]. by rewrite IH.
Qed.

Lemma order_by_id_desc_ascending (l : list payment) :
  (∀ i j p q, l !! i = Some p → l !! j = Some q → (i < j)%nat →
              pay_id p < pay_id q) →
  order_by_id_desc l = reverse l.
Proof.
  induction l as [|x l IH]; intros Hasc; [done|].
  simpl. rewrite reverse_cons, IH.
  - apply insert_desc_last. apply Forall_reverse, Forall_lookup.
    intros j q Hq. specialize (Hasc 0%nat (S j) x q eq_refl Hq). lia.
  - intros i j p q Hi Hj Hij. apply (Hasc (S i) (S j)); [done|done|lia].
Qed.

Lemma StronglySorted_take (n : nat) (l : list payment) :
  StronglySorted id_desc l → StronglySorted id_desc (take n l).
Proof.
  intros Hl. revert n. induction Hl as [|q l Hl IH Hq]; intros [|n]; simpl;
    try constructor; [apply IH|by apply Forall_take].
Qed.

(** X14. GET /payments sends at most 100 rows of the table, in descending
    order of id, all of them when the table holds no more than 100.  In the
    running service, started from a table whose ids follow the sequence,
    they are the last 100 rows inserted, newest first. *)
Theorem get_payments_spec (d : db) :
  length (get_payments d) = Nat.min 100 (length (payments d)) ∧
  StronglySorted id_desc (get_payments d) ∧
  (∀ p, p ∈ get_payments d → p ∈ payments d) ∧
  ((length (payments d) ≤ 100)%nat → get_payments d ≡ₚ payments d) ∧
  (payments_in_order d → get_payments d = take 100 (reverse (payments d))) ∧
  (∀ ttl sched s,
     payments_in_order (sys_db s) →
     get_payments (sys_db (sys_run ttl sched s))
     = take 100 (reverse (payments (sys_db (sys_run ttl sched s))))).
Proof.
  unfold get_payments.
  assert (Hord : ∀ d0, payments_in_order d0 →
            take 100 (order_by_id_desc (payments d0))
            = take 100 (reverse (payments d0))).
  { intros d0 [Hasc _]. by rewrite order_by_id_desc_ascending. }
  split; [|split; [|split; [|split; [|split]]]].
  - by rewrite length_take, (Permutation_length (order_by_id_desc_perm _)).
  - apply StronglySorted_take, order_by_id_desc_sorted.
  - intros p Hp. rewrite <- (order_by_id_desc_perm (payments d)).
    eapply elem_of_sublist; [exact Hp|apply sublist_take].
  - intros Hlen. rewrite take_ge; [apply order_by_id_desc_perm|].
    by rewrite (Permutation_length (order_by_id_desc_perm _)).
  - apply Hord.
  - intros ttl sched s Hs. apply Hord.
    by destruct (sys_run_in_order ttl sched s Hs).
Qed.

(** ** One payment for a key, one answer for a key *)

(** One statement of a handler: it pays only at the payment statement, and
    it comes to the payment statement only by winning the claim. *)
Lemma handler_step_charges (e : env) (d : db) (h : handler) :
  let d' := (handler_step e d h).1 in
  let h' := (handler_step e d h).2 in
  (payments d' = payments d ∧
   (pc h' = AtCharge →
      ∃ r, idempotency_keys d !! idempKey h = Some r ∧ row_status r = reserved)) ∨
  (pc h = AtCharge ∧ pc h' ≠ AtCharge ∧
   length (payments d') = S (length (payments d)) ∧
   idempotency_keys d' = idempotency_keys d).
Proof.
  unfold handler_step.
  destruct (pc h) as [| | |payload|message|waited|answer] eqn:Hpc;
    destruct (fault e) as [m|] eqn:He; cbn [fst snd];
    try (left; split; [done|]; by rewrite ?Hpc).
  - left. destruct (select_status_response (idempKey h) d) as [[s resp]|];
      [destruct (status_eqb s completed)|]; done.
  - pose proof (tryClaimKey_won (idempKey h) (Some (h_user_id h)) (now e) d) as Hw.
    pose proof (tryClaimKey_lost (idempKey h) (Some (h_user_id h)) (now e) d) as Hl.
    destruct (tryClaimKey (idempKey h) (Some (h_user_id h)) (now e) d)
      as [[] d'] eqn:Hclaim; cbn [fst snd] in *.
    + destruct (Hw eq_refl) as (r & Hr & (Hs & _)%claimable_iff & ->).
      left. split; [done|]. eauto.
    + rewrite (Hl eq_refl). left. split; [done|].
      unfold loop_head. by destruct (0 <? maxWaitMs).
  - right. split; [done|]. split; [done|]. split; [|done].
    simpl. rewrite length_app. simpl. lia.
  - left. split; [|done]. unfold record_outcome.
    by destruct (idempotency_keys d !! idempKey h).
  - left. split; [|done]. unfold record_outcome.
    by destruct (idempotency_keys d !! idempKey h).
  - left. destruct (select_status_response (idempKey h) d) as [[s resp]|];
      [destruct (status_eqb s completed); [|destruct (status_eqb s failed)]|];
      cbn [snd]; split; try done.
    unfold loop_head. by destruct (waited + intervalMs <? maxWaitMs).
Qed.

(** One step of the service appends to [payments] what [paid_by] lists. *)
Lemma sys_step_paid_by (ttl : Z) (e : env) (a : action) (s : system) :
  payments (sys_db (sys_step ttl e a s))
  = (payments (sys_db s) ++ (paid_by e a s).*2)%list.
Proof.
  destruct a as [key dn u op|rq|i|]; simpl.
  - by rewrite (proj1 (issue_payments _ _ _ _ _ _ _)), app_nil_r.
  - rewrite app_nil_r. by destruct (pay_begin rq).
  - destruct (sys_handlers s !! i) as [h|]; [|by rewrite app_nil_r].
    unfold handler_step.
    destruct (pc h) as [| | |payload|message|waited|answer];
      destruct (fault e) as [m|]; simpl; rewrite ?app_nil_r; try done.
    + by destruct (select_status_response (idempKey h) (sys_db s)) as [[s0 resp]|];
        [destruct (status_eqb s0 completed)|].
    + pose proof (tryClaimKey_won (idempKey h) (Some (h_user_id h)) (now e) (sys_db s)) as Hw.
      pose proof (tryClaimKey_lost (idempKey h) (Some (h_user_id h)) (now e) (sys_db s)) as Hl.
      destruct (tryClaimKey (idempKey h) (Some (h_user_id h)) (now e) (sys_db s))
        as [[] d'] eqn:Hclaim; cbn [fst snd] in *.
      * by destruct (Hw eq_refl) as (r & _ & _ & ->).
      * by rewrite (Hl eq_refl).
    + unfold record_outcome. by destruct (idempotency_keys (sys_db s) !! idempKey h).
    + unfold record_outcome. by destruct (idempotency_keys (sys_db s) !! idempKey h).
    + by destruct (select_status_response (idempKey h) (sys_db s)) as [[s0 resp]|];
        [destruct (status_eqb s0 completed); [|destruct (status_eqb s0 failed)]|].
  - by rewrite (proj1 (cleanup_payments _ _)), app_nil_r.
Qed.

Lemma paid_by_cases (e : env) (a : action) (s : system) :
  paid_by e a s = [] ∨
  ∃ i h, a = Advance i ∧ sys_handlers s !! i = Some h ∧ pc h = AtCharge ∧
         fault e = None ∧
         paid_by e a s =
           [(idempKey h,
             Payment (payments_id_seq (sys_db s) + 1) (h_user_id h) (h_amount h)
                     (now e))].
Proof.
  destruct a as [key dn u op|rq|i|]; simpl; try by left.
  destruct (sys_handlers s !! i) as [h|] eqn:Hi; [|by left].
  destruct (pc h) eqn:Hpc; try by left.
  destruct (fault e) eqn:He; [by left|].
  right. by exists i, h.
Qed.

Section paid.
Variable ttl : Z.

Lemma sys_step_paid_once (keys : list string) (e : env) (a : action) (s : system) :
  sound s → paid_once keys s →
  paid_once (keys ++ (paid_by e a s).*1) (sys_step ttl e a s).
Proof.
  intros Hsound (Hnodup & Hrows & Hfree).
  assert (Hkept : ∀ k, k ∈ keys →
            ∃ r, idempotency_keys (sys_db (sys_step ttl e a s)) !! k = Some r ∧
                 row_status r ≠ reserved).
  { intros k (r & Hr & Hs)%Hrows. by apply (sys_step_taken ttl e a s k r). }
  destruct (paid_by_cases e a s) as [->|(i & h & -> & Hi & Hpc & He & ->)].
  - simpl. rewrite app_nil_r. split; [done|]. split; [done|].
    destruct a as [key dn u op|rq|i|]; simpl; try done.
    + destruct (pay_begin rq) as [resp|h0] eqn:Hrq; [done|].
      apply pay_begin_accepted in Hrq as (Hpc0 & _). simpl.
      intros j h [[_ Hj]|[-> <-]]%lookup_snoc_Some Hh; [eauto|congruence].
    + destruct (sys_handlers s !! i) as [h|] eqn:Hi; [|done].
      pose proof (handler_step_charges e (sys_db s) h) as Hcharge.
      pose proof (handler_step_effect e (sys_db s) h) as (Hkey & _).
      destruct (handler_step e (sys_db s) h) as [d' h']. simpl in *.
      intros j hj [(-> & <- & _)|(Hne & Hj)]%list_lookup_insert_Some Hh; [|eauto].
      destruct Hcharge as [(_ & Hto)|(_ & Hpc' & _)]; [|done].
      destruct (Hto Hh) as (r & Hr & Hs). rewrite Hkey. intros Hin.
      destruct (Hrows _ Hin) as (r' & Hr' & Hs'). congruence.
  - assert (Hnew : idempKey h ∉ keys) by eauto.
    cbn [fmap list_fmap fst].
    split; [|split].
    + apply NoDup_app. split; [done|]. split; [|apply NoDup_singleton].
      intros k Hk ->%list_elem_of_singleton. done.
    + intros k [Hk| ->%list_elem_of_singleton]%elem_of_app; [by apply Hkept|].
      destruct (sound_held s Hsound i h Hi) as (r & Hr & Hs); [by rewrite Hpc|].
      exists r. simpl. rewrite Hi. unfold handler_step. rewrite Hpc, He.
      simpl. split; [done|]. by rewrite Hs.
    + simpl. rewrite Hi. unfold handler_step. rewrite Hpc, He. simpl.
      intros j hj [(-> & <- & _)|(Hne & Hj)]%list_lookup_insert_Some Hh;
        [done|].
      intros [Hin|Hin%list_elem_of_singleton]%elem_of_app; [by eapply Hfree|].
      apply Hne. eapply (sound_sole s Hsound i j h hj); try done.
      * by rewrite Hpc.
      * by rewrite Hh.
Qed.

Lemma sys_run_paid_once (sched : list (env * action)) :
  ∀ (keys : list string) (s : system),
    sound s → paid_once keys s →
    paid_once (keys ++ (ledger ttl sched s).*1) (sys_run ttl sched s) ∧
    payments (sys_db (sys_run ttl sched s))
    = (payments (sys_db s) ++ (ledger ttl sched s).*2)%list.
Proof.
  induction sched as [|[e a] rest IH]; intros keys s Hs Hp.
  { simpl. by rewrite !app_nil_r. }
  simpl. rewrite !fmap_app.
  destruct (IH (keys ++ (paid_by e a s).*1)%list (sys_step ttl e a s))
    as [Hpaid Hrows]; [by apply sys_step_sound|by apply sys_step_paid_once|].
  split.
  - by rewrite (assoc_L (++)).
  - by rewrite Hrows, sys_step_paid_by, (assoc_L (++)).
Qed.

(** Handlers stay in the service, with their key, user and amount, and
    never come back before the payment statement. *)
Lemma sys_step_paid_for (e : env) (a : action) (s : system) (kp : string * payment) :
  paid_for s kp ∨ kp ∈ paid_by e a s → paid_for (sys_step ttl e a s) kp.
Proof.
  intros [(j & hj & Hj & Hkey & Hu & Ham & Hpast)|Hin].
  - destruct a as [key dn u op|rq|i|]; simpl.
    + by exists j, hj.
    + destruct (pay_begin rq) as [resp|h0]; [by exists j, hj|].
      exists j, hj. split; [|done]. simpl. by apply lookup_app_l_Some.
    + destruct (sys_handlers s !! i) as [h|] eqn:Hi; [|by exists j, hj].
      pose proof (handler_step_frame e (sys_db s) h) as (_ & Hk & Hu' & Ha' & Hpay).
      destruct (handler_step e (sys_db s) h) as [d' h']. simpl in *.
      destruct (decide (i = j)) as [->|Hne].
      * assert (hj = h) as -> by congruence.
        exists j, h'. split; [|split; [congruence|split; [congruence|split; [congruence|]]]].
        -- apply list_lookup_insert_eq. by eapply lookup_lt_Some.
        -- destruct Hpay as [(_ & _ & Hmono)|(_ & Hnow & _)]; [by apply Hmono|done].
      * exists j, hj. split; [|done]. simpl. by rewrite list_lookup_insert_ne.
    + by exists j, hj.
  - destruct (paid_by_cases e a s) as [Hnone|(i & h & -> & Hi & Hpc & He & Hpaid)].
    { rewrite Hnone in Hin. by apply elem_of_nil in Hin. }
    rewrite Hpaid in Hin. apply list_elem_of_singleton in Hin as ->.
    simpl. rewrite Hi. unfold handler_step. rewrite Hpc, He. simpl.
    exists i, (at_pc h (AtComplete
                 (success_payload
                    (Payment (payments_id_seq (sys_db s) + 1) (h_user_id h)
                             (h_amount h) (now e))))).
    split; [|done]. apply list_lookup_insert_eq. by eapply lookup_lt_Some.
Qed.

Lemma sys_run_paid_for (sched : list (env * action)) :
  ∀ (s : system) (kp : string * payment),
    paid_for s kp ∨ kp ∈ ledger ttl sched s → paid_for (sys_run ttl sched s) kp.
Proof.
  induction sched as [|[e a] rest IH]; intros s kp Hkp; simpl in *.
  { destruct Hkp as [?|?%elem_of_nil]; done. }
  apply IH. destruct Hkp as [Hold|[Hnow|Hlater]%elem_of_app].
  - left. apply sys_step_paid_for. by left.
  - left. apply sys_step_paid_for. by right.
  - by right.
Qed.
End paid.

(** X15. From a database whose non-terminal records carry no response and
    with no request in flight, whatever the schedule: the rows added to
    [payments] are exactly those of the ledger, which records with each row
    the key of the request whose handler inserted it; each of these rows
    carries the user and the amount of a request of the service that
    presented that key; and no key occurs twice in the ledger: no key is
    paid for twice.  Every key paid for has a record that left [reserved],
    so there are never more new payments than such records. *)
Theorem one_payment_per_key (ttl : Z) (d0 : db) (sched : list (env * action))
    (Hinit : unanswered d0) :
  let s := sys_run ttl sched (System d0 []) in
  let paid := ledger ttl sched (System d0 []) in
  payments (sys_db s) = (payments d0 ++ paid.*2)%list ∧
  NoDup paid.*1 ∧
  (∀ k p p', (k, p) ∈ paid → (k, p') ∈ paid → p = p') ∧
  (∀ k p, (k, p) ∈ paid →
          ∃ i h, sys_handlers s !! i = Some h ∧ idempKey h = k ∧
                 pay_user_id p = h_user_id h ∧ pay_amount p = h_amount h ∧
                 past_charge (pc h) = true) ∧
  (∀ k p, (k, p) ∈ paid →
          ∃ r, idempotency_keys (sys_db s) !! k = Some r ∧
               row_status r ≠ reserved) ∧
  (length (payments (sys_db s))
   ≤ length (payments d0) + size (left_reserved (sys_db s)))%nat.
Proof.
  intros s paid.
  destruct (sys_run_paid_once ttl sched [] (System d0 []))
    as [(Hnodup & Hrows & _) Hpay].
  { by apply sound_quiet. }
  { split; [apply NoDup_nil_2|]. split; [by intros k ?%elem_of_nil|].
    intros i h. simpl. by rewrite lookup_nil. }
  simpl in Hnodup, Hrows, Hpay. fold s paid in Hnodup, Hrows, Hpay.
  assert (Hin : ∀ k p, (k, p) ∈ paid → k ∈ paid.*1).
  { intros k p Hkp. apply list_elem_of_fmap. by exists (k, p). }
  split; [done|]. split; [done|]. split; [|split; [|split]].
  - intros k p p' [i Hi]%list_elem_of_lookup_1 [j Hj]%list_elem_of_lookup_1.
    assert (i = j) as ->.
    { apply (NoDup_lookup paid.*1 i j k Hnodup);
        rewrite list_lookup_fmap; [by rewrite Hi|by rewrite Hj]. }
    congruence.
  - intros k p Hkp.
    apply (sys_run_paid_for ttl sched (System d0 []) (k, p)). by right.
  - intros k p Hkp. apply Hrows. by eapply Hin.
  - rewrite Hpay, length_app, !length_fmap. apply Nat.add_le_mono_l.
    rewrite <- (length_fmap fst paid).
    rewrite <- (size_list_to_set (C := gset string) paid.*1 Hnodup).
    rewrite <- (size_dom (D := gset string) (left_reserved (sys_db s))).
    apply subseteq_size. intros k (r & Hr & Hs)%elem_of_list_to_set%Hrows.
    apply elem_of_dom. exists r. unfold left_reserved.
    apply map_lookup_filter_Some. split; [done|]. simpl.
    destruct (status_eqb (row_status r) reserved) eqn:He; [|done].
    by apply status_eqb_eq in He.
Qed.

(** The three ways in which a handler comes to answer 200. *)
Lemma handler_step_200 (e : env) (d : db) (h : handler) (answer : json) :
  pc (handler_step e d h).2 = Done (Http 200 answer) →
  pc h = Done (Http 200 answer) ∨
  ((handler_step e d h).1 = d ∧
   ∃ r, idempotency_keys d !! idempKey h = Some r ∧
        row_status r = completed ∧ opt_json (row_response r) = answer) ∨
  (pc h = AtComplete answer ∧
   (handler_step e d h).1 = record_outcome (idempKey h) completed answer (now e) d).
Proof.
  unfold handler_step, select_status_response.
  destruct (pc h) as [| | |payload|message|waited|r0] eqn:Hpc;
    destruct (fault e) as [m|] eqn:He; cbn [fst snd pc at_pc]; try done.
  - destruct (idempotency_keys d !! idempKey h) as [r|] eqn:Hr; [|done].
    destruct (status_eqb (row_status r) completed) eqn:Hs; [|done].
    cbn [snd pc at_pc]. intros [= <-]. right. left. split; [done|].
    exists r. by apply status_eqb_eq in Hs.
  - destruct (tryClaimKey _ _ _ _) as [[] d']; cbn [snd pc at_pc]; [done|].
    unfold loop_head. by destruct (0 <? maxWaitMs).
  - intros [= <-]. right. right. done.
  - destruct (idempotency_keys d !! idempKey h) as [r|] eqn:Hr; [|done].
    destruct (status_eqb (row_status r) completed) eqn:Hs.
    + cbn [snd pc at_pc]. intros [= <-]. right. left. split; [done|].
      exists r. by apply status_eqb_eq in Hs.
    + destruct (status_eqb (row_status r) failed); cbn [snd pc at_pc]; [done|].
      unfold loop_head. by destruct (waited + intervalMs <? maxWaitMs).
  - intros Hd. left. congruence.
  - intros Hd. left. congruence.
Qed.

Section answers.
Variable ttl : Z.

Lemma sys_step_answered (e : env) (a : action) (s : system) :
  sound s → answered_from_store s → answered_from_store (sys_step ttl e a s).
Proof.
  intros Hsound Hans.
  assert (Hold : ∀ i h answer, sys_handlers s !! i = Some h →
            pc h = Done (Http 200 answer) →
            ∃ r, idempotency_keys (sys_db (sys_step ttl e a s)) !! idempKey h = Some r ∧
                 row_status r = completed ∧ opt_json (row_response r) = answer).
  { intros i h answer Hi Hpc. destruct (Hans i h answer Hi Hpc) as (r & Hr & Hs & Hresp).
    exists r. split; [|done]. apply sys_step_terminal; [done|done|by rewrite Hs]. }
  intros j hj answer Hj Hpc.
  destruct a as [key dn u op|rq|i|]; simpl in Hj.
  - by eapply Hold.
  - destruct (pay_begin rq) as [resp|h0] eqn:Hrq; [by eapply Hold|].
    simpl in Hj. apply lookup_snoc_Some in Hj as [[_ Hj]|[_ <-]]; [by eapply Hold|].
    apply pay_begin_accepted in Hrq as (Hpc0 & _). congruence.
  - destruct (sys_handlers s !! i) as [h|] eqn:Hi; [|by eapply Hold].
    pose proof (handler_step_200 e (sys_db s) h answer) as H200.
    pose proof (handler_step_effect e (sys_db s) h) as (Hkey & _).
    pose proof (Hold i h answer Hi) as Holdi. simpl in Holdi. rewrite Hi in Holdi.
    specialize (Hold j hj answer). simpl in Hold. rewrite Hi in Hold.
    simpl. rewrite Hi.
    destruct (handler_step e (sys_db s) h) as [d' h'] eqn:Hstep. simpl in *.
    apply list_lookup_insert_Some in Hj as [(-> & <- & _)|(Hne & Hj)]; [|eauto].
    rewrite Hkey.
    destruct (H200 Hpc) as [Hdone|[(-> & r & Hr & Hs & Hresp)|(Hat & ->)]].
    + by apply Holdi.
    + by exists r.
    + destruct (sound_held s Hsound j h Hi) as (r0 & Hr0 & _); [by rewrite Hat|].
      rewrite (record_outcome_keys _ _ _ _ _ r0 Hr0), lookup_insert_eq.
      by eexists.
  - by eapply Hold.
Qed.

Lemma sys_run_answered (sched : list (env * action)) (s : system) :
  sound s → answered_from_store s → answered_from_store (sys_run ttl sched s).
Proof.
  revert s. induction sched as [|[e a] rest IH]; intros s Hs Ha; [done|].
  simpl. apply IH; [by apply sys_step_sound|by apply sys_step_answered].
Qed.
End answers.

(** X16. From a database whose non-terminal records carry no response and
    with no request in flight, whatever the schedule: every request that was
    answered 200 (the one that paid, or one that found the key [completed]
    at entry or while polling) was sent the response stored in the
    [completed] record of its key, so all requests answered 200 for one key
    got the same body. *)
Theorem same_answer_for_a_key (ttl : Z) (d0 : db) (sched : list (env * action))
    (Hinit : unanswered d0) :
  let s := sys_run ttl sched (System d0 []) in
  (∀ i h answer, sys_handlers s !! i = Some h →
     pc h = Done (Http 200 answer) →
     ∃ r, idempotency_keys (sys_db s) !! idempKey h = Some r ∧
          row_status r = completed ∧ opt_json (row_response r) = answer) ∧
  (∀ i j h h' answer answer',
     sys_handlers s !! i = Some h → sys_handlers s !! j = Some h' →
     idempKey h = idempKey h' →
     pc h = Done (Http 200 answer) → pc h' = Done (Http 200 answer') →
     answer = answer').
Proof.
  intros s.
  assert (Hans : answered_from_store s).
  { apply sys_run_answered; [by apply sound_quiet|].
    intros i h answer. simpl. by rewrite lookup_nil. }
  split; [exact Hans|].
  intros i j h h' answer answer' Hi Hj Hkey Hpc Hpc'.
  destruct (Hans i h answer Hi Hpc) as (r & Hr & _ & <-).
  destruct (Hans j h' answer' Hj Hpc') as (r' & Hr' & _ & <-).
  rewrite Hkey in Hr. congruence.
Qed.

(** ** The state machine and the retry, from a quiet start *)

(** X17. From a database whose non-terminal records carry no response and
    with no request in flight, after any schedule, one more step of the
    service moves the status of a record forward or not at all: the record
    is unchanged, or went from [reserved] to [processing] (a claim won), or
    from [processing] to [completed] or [failed] (the outcome write), or was
    [reserved] and is gone (the sweep).  No step takes a record from
    [reserved] to a terminal status, back to an earlier one, or removes a
    record that was claimed. *)
Theorem status_moves_forward (ttl : Z) (d0 : db) (pre : list (env * action))
    (e : env) (a : action) (Hinit : unanswered d0) :
  let s := sys_run ttl pre (System d0 []) in
  ∀ k r, idempotency_keys (sys_db s) !! k = Some r →
    match idempotency_keys (sys_db (sys_step ttl e a s)) !! k with
    | None => row_status r = reserved
    | Some r' =>
        r' = r ∨
        (row_status r = reserved ∧ row_status r' = processing) ∨
        (row_status r = processing ∧ terminal (row_status r') = true)
    end.
Proof.
  intros s k r Hk. apply sys_step_forward; [|done].
  by apply sys_run_sound, sound_quiet.
Qed.


Lemma pay_run_trace_length (fuel : nat) (w : nat -> turn) :
  ∀ (i : nat) (d : db) (h : handler),
    (length (pay_run fuel w i d h).2 ≤ fuel)%nat.
Proof.
  induction fuel as [|fuel IH]; intros i d h; [simpl; lia|].
  destruct (is_done (pc h)) eqn:Hd.
  - rewrite pay_run_done by done. simpl. lia.
  - rewrite pay_run_step by done. cbv zeta. cbn [snd length].
    specialize (IH (S i) (handler_step (t_env (w i)) (t_others (w i) d) h).1
                  (handler_step (t_env (w i)) (t_others (w i) d) h).2). lia.
Qed.

(** X19. A request taken up is always answered, after at most 52 of its
    statements, whatever the other processes do between them and whatever
    the storage answers; statements beyond the answer do not exist. *)
Theorem pay_answers_within_52 (w : nat -> turn) (i : nat) (d : db)
    (key : string) (user_id amount : Z) :
  let res := pay_run 52 w i d (Handler key user_id amount AtSelect) in
  (∃ answer, pc res.1.2 = Done answer) ∧
  (length res.2 ≤ 52)%nat ∧
  (∀ fuel, (52 ≤ fuel)%nat →
     pay_run fuel w i d (Handler key user_id amount AtSelect) = res).
Proof.
  intros res.
  pose proof (pay_run_total w i d (Handler key user_id amount AtSelect) eq_refl) as Hd.
  fold res in Hd. split; [|split].
  - destruct (pc res.1.2); try done. by eexists.
  - apply pay_run_trace_length.
  - intros fuel Hfuel. replace fuel with (52 + (fuel - 52))%nat by lia.
    by apply pay_run_more.
Qed.

(** X20. A poll that the storage rejects (the polls before it, if any,
    having found the record [reserved] or [processing]) ends the wait at
    once: the handler answers 500 "Server error" with the storage's message
    and polls no more. *)
Theorem poll_rejected (w : nat -> turn) (i : nat) (d : db) (h : handler) (j : nat)
    (message : string)
    (Hj : (j < 50)%nat)
    (Hbefore : ∀ j', (j' < j)%nat → pending (sight_at w (idempKey h) i d j'))
    (Hrejected : sight_at w (idempKey h) i d j = Rejected message) :
  let r := pay_run 50 w i d (at_pc h (loop_head 0)) in
  pc r.1.2 = Done (server_error message) ∧
  code (server_error message) = 500 ∧
  length r.2 = S j.
Proof.
  intros r.
  destruct (wait_loop_first w j 50 0 i d (at_pc h (loop_head 0))) as (H1 & H2);
    [done|done|done|done| |].
  { simpl. rewrite Hrejected. by intros [? [|]]. }
  fold r in H1, H2. simpl in H1. rewrite Hrejected in H1. done.
Qed.

(** X21. Records come only from the issuer: when a step of the service
    finds no record under a key and leaves one, the step is an issue of that
    very key, and the record is [reserved], without response, its window
    ending TTL minutes after the issuer's clock.  No statement of a POST
    /pay handler and no sweep ever creates a record. *)
Theorem records_come_from_issue (ttl : Z) (e : env) (a : action) (s : system)
    (k : string) (r : key_row)
    (Habsent : idempotency_keys (sys_db s) !! k = None)
    (Hpresent : idempotency_keys (sys_db (sys_step ttl e a s)) !! k = Some r) :
  ∃ date_now user_id operation,
    a = Issue k date_now user_id operation ∧
    r = KeyRow reserved None (or_null user_id) (or_null_str operation)
               (Some (date_now + ttl * 60 * 1000)) (now e) (now e).
Proof.
  destruct a as [key dn u op|rq|i|]; simpl in Hpresent.
  - destruct (decide (key = k)) as [->|Hne].
    + exists dn, u, op. split; [done|].
      unfold issue, insert_key in Hpresent.
      destruct (fault e); [simpl in Hpresent; congruence|].
      rewrite Habsent in Hpresent. simpl in Hpresent.
      rewrite lookup_insert_eq in Hpresent. congruence.
    + destruct (issue_keys ttl key dn e u op (sys_db s))
        as [Heq|(_ & r' & _ & _ & Heq)]; rewrite Heq in Hpresent; [congruence|].
      rewrite lookup_insert_ne in Hpresent by done. congruence.
  - destruct (pay_begin rq); simpl in Hpresent; congruence.
  - destruct (sys_handlers s !! i) as [h|] eqn:Hi; [|congruence].
    pose proof (handler_step_frame e (sys_db s) h) as ((Hothers & Hnone & _) & _).
    destruct (handler_step e (sys_db s) h) as [d' h']. simpl in *.
    destruct (decide (k = idempKey h)) as [->|Hne].
    + rewrite (Hnone Habsent) in Hpresent. congruence.
    + rewrite (Hothers k Hne) in Hpresent. congruence.
  - destruct (cleanup_keys e (sys_db s) k) as [Heq|[Heq _]];
      rewrite Heq in Hpresent; congruence.
Qed.

(** ** Concrete runs of the further properties *)

Lemma issue_then_claim_in_time :
  (tryClaimKey "K" (Some 1) 40
     (issue KEY_TTL_MINUTES_default "K" 10 (calm 10) (Some 1) None empty_db).2).1
  = true ↔
  (or_null (Some 1) = None ∨ or_null (Some 1) = or_null (Some 1)) ∧
  40 < 10 + KEY_TTL_MINUTES_default * 60 * 1000.
Proof.
  apply (issue_then_claim KEY_TTL_MINUTES_default "K" 10 (calm 10) (Some 1) None
           empty_db (Some 1) 40).
  - reflexivity.
  - vm_compute. reflexivity.
Defined.

Lemma expired_key_is_swept_once :
  get_idempotency "K"
    (cleanup (calm 200000)
       (issue 1 "K" 10 (calm 10) (Some 1) None empty_db).2).2
  = Http 404 (JObj [("error", JStr "not found")]).
Proof.
  destruct (expired_key_is_swept 1 "K" 10 (calm 10) (Some 1) None empty_db
              (Some 1) 100000 200000) as (_ & _ & _ & H).
  - reflexivity.
  - vm_compute. reflexivity.
  - vm_compute. discriminate.
  - vm_compute. reflexivity.
  - exact H.
Defined.

Lemma cleanup_twice_mixed :
  delete_expired 5000 (delete_expired 5000 mixed_db).2
    = (0%nat, (delete_expired 5000 mixed_db).2) ∧
  cleanup (calm 5000) (cleanup (calm 5000) mixed_db).2
    = (0, Some 0%nat, (cleanup (calm 5000) mixed_db).2).
Proof. apply (cleanup_twice 5000 5000 mixed_db). lia. Defined.

Lemma sweep_claim_commute_mixed :
  let swept := (delete_expired 5000 mixed_db).2 in
  (tryClaimKey "live" (Some 1) 6000 swept).1
    = (tryClaimKey "live" (Some 1) 6000 mixed_db).1 ∧
  (tryClaimKey "live" (Some 1) 6000 swept).2
    = (delete_expired 5000 (tryClaimKey "live" (Some 1) 6000 mixed_db).2).2.
Proof. apply (sweep_claim_commute 5000 6000 "live" (Some 1) mixed_db). lia. Defined.

Lemma unknown_key_rejected_once :
  serve steady pay_K empty_db = (Some unknown_key, empty_db, [AtSelect]) ∧
  code unknown_key = 400 ∧
  get_idempotency "K" (serve steady pay_K empty_db).1.2
    = Http 404 (JObj [("error", JStr "not found")]).
Proof.
  apply (unknown_key_rejected steady pay_K empty_db (Handler "K" 1 100 AtSelect)).
  - reflexivity.
  - reflexivity.
  - vm_compute. reflexivity.
Defined.

Lemma storage_rejects_early_once :
  serve select_rejected pay_K reserved_db
  = (Some (server_error "down"), reserved_db, [AtSelect]).
Proof.
  destruct (storage_rejects_early select_rejected pay_K reserved_db
              (Handler "K" 1 100 AtSelect) "down") as (H & _).
  - reflexivity.
  - apply H. reflexivity.
Defined.


Lemma completed_write_rejected_K :
  (serve complete_rejected pay_K reserved_db).1.1
  = Some (payment_failed "connection lost") ∧
  payments (serve complete_rejected pay_K reserved_db).1.2 = [Payment 1 1 100 50].
Proof.
  destruct (completed_write_rejected complete_rejected pay_K reserved_db
              (Handler "K" 1 100 AtSelect) reserved_row "connection lost")
    as (H & _).
  - reflexivity.
  - intros n Hn. do 3 (destruct n as [|n]; [reflexivity|]). lia.
  - reflexivity.
  - reflexivity.
  - vm_compute. reflexivity.
  - reflexivity.
  - right. reflexivity.
  - right. exists 1000. split; [reflexivity|]. vm_compute. reflexivity.
  - rewrite H. split; reflexivity.
Defined.


Lemma payments_in_order_empty : payments_in_order empty_db.
Proof.
  split.
  - intros i j p q Hi. simpl in Hi. by rewrite lookup_nil in Hi.
  - intros p Hp. simpl in Hp. by apply elem_of_nil in Hp.
Qed.

Lemma unanswered_empty : unanswered empty_db.
Proof. intros k r Hk. simpl in Hk. by rewrite lookup_empty in Hk. Qed.

Lemma payments_append_only_run :
  let s' := sys_run KEY_TTL_MINUTES_default run_to_completed (System empty_db []) in
  payments empty_db `prefix_of` payments (sys_db s') ∧
  payments_in_order (sys_db s') ∧
  NoDup (pay_id <$> payments (sys_db s')) ∧
  payments_id_seq empty_db ≤ payments_id_seq (sys_db s').
Proof.
  apply (payments_append_only KEY_TTL_MINUTES_default run_to_completed
           (System empty_db [])).
  exact payments_in_order_empty.
Defined.

Lemma one_payment_per_key_run :
  let s := sys_run KEY_TTL_MINUTES_default race_for_K (System empty_db []) in
  let paid := ledger KEY_TTL_MINUTES_default race_for_K (System empty_db []) in
  paid = [("K", Payment 1 1 100 50)] ∧
  length (sys_handlers s) = 2%nat ∧
  payments (sys_db s) = (payments empty_db ++ paid.*2)%list ∧
  NoDup paid.*1 ∧
  (∀ k p p', (k, p) ∈ paid → (k, p') ∈ paid → p = p') ∧
  (∀ k p, (k, p) ∈ paid →
          ∃ i h, sys_handlers s !! i = Some h ∧ idempKey h = k ∧
                 pay_user_id p = h_user_id h ∧ pay_amount p = h_amount h ∧
                 past_charge (pc h) = true) ∧
  (∀ k p, (k, p) ∈ paid →
          ∃ r, idempotency_keys (sys_db s) !! k = Some r ∧
               row_status r ≠ reserved) ∧
  (length (payments (sys_db s))
   ≤ length (payments empty_db) + size (left_reserved (sys_db s)))%nat.
Proof.
  split; [vm_compute; reflexivity|]. split; [vm_compute; reflexivity|].
  apply (one_payment_per_key KEY_TTL_MINUTES_default empty_db race_for_K).
  exact unanswered_empty.
Defined.

Lemma same_answer_for_a_key_run :
  let s := sys_run KEY_TTL_MINUTES_default (run_to_completed ++ run_after)
             (System empty_db []) in
  (∀ i h answer, sys_handlers s !! i = Some h →
     pc h = Done (Http 200 answer) →
     ∃ r, idempotency_keys (sys_db s) !! idempKey h = Some r ∧
          row_status r = completed ∧ opt_json (row_response r) = answer) ∧
  (∀ i j h h' answer answer',
     sys_handlers s !! i = Some h → sys_handlers s !! j = Some h' →
     idempKey h = idempKey h' →
     pc h = Done (Http 200 answer) → pc h' = Done (Http 200 answer') →
     answer = answer').
Proof.
  apply (same_answer_for_a_key KEY_TTL_MINUTES_default empty_db
           (run_to_completed ++ run_after)).
  exact unanswered_empty.
Defined.

Lemma status_moves_forward_run :
  let s := sys_run KEY_TTL_MINUTES_default run_to_completed (System empty_db []) in
  let r := KeyRow completed
                  (Some (JObj [("success", JBool true); ("paymentId", JNum 1);
                               ("created_at", JNum 50)]))
                  (Some 1) (Some "pay") (Some 86400010) 10 60 in
  match idempotency_keys
          (sys_db (sys_step KEY_TTL_MINUTES_default (calm 100000000) Sweep s)) !! "K"
  with
  | None => row_status r = reserved
  | Some r' =>
      r' = r ∨
      (row_status r = reserved ∧ row_status r' = processing) ∨
      (row_status r = processing ∧ terminal (row_status r') = true)
  end.
Proof.
  apply (status_moves_forward KEY_TTL_MINUTES_default empty_db run_to_completed
           (calm 100000000) Sweep unanswered_empty "K").
  vm_compute. reflexivity.
Defined.


Lemma poll_rejected_first :
  let r := pay_run 50 first_poll_rejected 0 reserved_db
             (at_pc (Handler "K" 2 5 AtClaim) (loop_head 0)) in
  pc r.1.2 = Done (server_error "timeout") ∧
  code (server_error "timeout") = 500 ∧
  length r.2 = 1%nat.
Proof.
  apply (poll_rejected first_poll_rejected 0 reserved_db
           (Handler "K" 2 5 AtClaim) 0 "timeout").
  - lia.
  - intros j' Hj'. lia.
  - reflexivity.
Defined.

Lemma records_come_from_issue_K :
  ∃ date_now user_id operation,
    Issue "K" 10 (Some 1) None = Issue "K" date_now user_id operation ∧
    KeyRow reserved None (Some 1) None
           (Some (10 + KEY_TTL_MINUTES_default * 60 * 1000)) 10 10
    = KeyRow reserved None (or_null user_id) (or_null_str operation)
             (Some (date_now + KEY_TTL_MINUTES_default * 60 * 1000))
             (now (calm 10)) (now (calm 10)).
Proof.
  apply (records_come_from_issue KEY_TTL_MINUTES_default (calm 10)
           (Issue "K" 10 (Some 1) None) (System empty_db []) "K").
  - vm_compute. reflexivity.
  - vm_compute. reflexivity.
Defined.
